(** * Item comparison service: a shallow embedding and its properties

    The development follows the Go packages of the repository:
    [errors] (domain errors), [models] (items and comparison payload),
    [repositories] (the item store interface) and [services]
    (ItemServiceImpl: GetAllItems, GetItemByID, CompareItems and their
    helpers).  Go maps are stdpp [gmap]s, slices are lists, Go strings
    are byte strings, [float64] is the primitive binary64 type.
    [int64] identifiers are [Z]: the service only compares them, so
    their 64-bit range plays no role.  A Go [(value, error)] result is
    a sum, the error on the left. *)

From Stdlib Require Import ZArith Ascii Floats.PrimFloat Floats.SpecFloat
  Floats.FloatOps Floats.FloatAxioms.
From stdpp Require Import gmap strings list fin_maps sorting pretty.

Set Warnings "-register-all,-clear-no-such-hyp,-inexact-float".

Local Open Scope string_scope.
Local Open Scope Z_scope.
Local Open Scope list_scope.

(** ** Go's [error] values *)

(** The codes of package [errors]. *)
Inductive ErrorCode : Type :=
  | ErrorCodeNotFound
  | ErrorCodeBadRequest
  | ErrorCodeInternalServer
  | ErrorCodeValidation
  | ErrorCodeTooManyRequests.

Global Instance ErrorCode_eq_dec : EqDecision ErrorCode.
Proof. solve_decision. Defined.

(** Go errors as the service meets them: the sentinels it (or the
    store) compares against, leaf errors made by [errors.New], errors
    wrapped by [fmt.Errorf("...: %w", err)], and the repository's own
    [*DomainError], which implements [Unwrap]. *)
Inductive error : Type :=
  | ErrNotFound                 (* repositories.ErrNotFound *)
  | SqlErrNoRows                (* sql.ErrNoRows *)
  | SqlErrConnDone              (* sql.ErrConnDone *)
  | ContextCanceled             (* context.Canceled *)
  | ContextDeadlineExceeded     (* context.DeadlineExceeded *)
  | ErrorString (msg : string)  (* any other errors.New(msg) *)
  | WrapError (msg : string) (cause : error)
  | DomainErr (Code : ErrorCode) (Message : string) (Err : option error).

(** Identity of error values ([err == target] in [errors.Is]).  Each
    sentinel is a constructor of its own, so a sentinel is identical
    to itself only, as the package-level pointer it is in Go; the
    service never uses another kind of target. *)
Fixpoint error_eqb (e1 e2 : error) : bool :=
  match e1, e2 with
  | ErrNotFound, ErrNotFound => true
  | SqlErrNoRows, SqlErrNoRows => true
  | SqlErrConnDone, SqlErrConnDone => true
  | ContextCanceled, ContextCanceled => true
  | ContextDeadlineExceeded, ContextDeadlineExceeded => true
  | ErrorString m1, ErrorString m2 => bool_decide (m1 = m2)
  | WrapError m1 c1, WrapError m2 c2 => bool_decide (m1 = m2) && error_eqb c1 c2
  | DomainErr c1 m1 o1, DomainErr c2 m2 o2 =>
      bool_decide (c1 = c2) && bool_decide (m1 = m2) &&
      match o1, o2 with
      | None, None => true
      | Some a, Some b => error_eqb a b
      | _, _ => false
      end
  | _, _ => false
  end.

(** [Unwrap]: the wrapped error of a [fmt.Errorf] value or of a
    [DomainError]; [None] stands for Go's nil. *)
Definition Unwrap (e : error) : option error :=
  match e with
  | WrapError _ cause => Some cause
  | DomainErr _ _ cause => cause
  | _ => None
  end.

(** [errors.Is(err, target)] for a non-nil [err]: walk the [Unwrap]
    chain until a value identical to [target] is met. *)
Fixpoint Is (err target : error) : bool :=
  error_eqb err target ||
  match err with
  | WrapError _ cause => Is cause target
  | DomainErr _ _ (Some cause) => Is cause target
  | _ => false
  end.

Module errors.

(** The domain error record of package [errors]. *)
Record DomainError : Type := NewDomainError {
  Code : ErrorCode;
  Message : string;
  Err : option error
}.

(** A [*DomainError] seen through the [error] interface. *)
Definition as_error (e : DomainError) : error :=
  DomainErr (Code e) (Message e) (Err e).

(** The [id interface{}] argument of [NewNotFoundError]. *)
Inductive any : Type :=
  | AnyNil
  | AnyInt64 (n : Z).

(** [fmt.Sprintf("%v", x)]. *)
Definition fmt_v (x : any) : string :=
  match x with
  | AnyNil => "<nil>"
  | AnyInt64 n => pretty n
  end.

(** [fmt.Sprintf("%v", ids)] for [ids []int64]: the decimal
    numerals separated by one space, in square brackets. *)
Fixpoint fmt_join (ids : list Z) : string :=
  match ids with
  | [] => ""
  | [n] => pretty n
  | n :: rest => pretty n +:+ " " +:+ fmt_join rest
  end.
Definition fmt_int64s (ids : list Z) : string := "[" +:+ fmt_join ids +:+ "]".

Definition NewNotFoundError (resource : string) (id : any) : DomainError :=
  NewDomainError ErrorCodeNotFound
    (resource +:+ " with id " +:+ fmt_v id +:+ " not found") None.

Definition NewBadRequestError (message : string) (err : option error) : DomainError :=
  NewDomainError ErrorCodeBadRequest message err.

Definition NewValidationError (message : string) (err : option error) : DomainError :=
  NewDomainError ErrorCodeValidation message err.

Definition NewInternalServerError (message : string) (err : option error) : DomainError :=
  NewDomainError ErrorCodeInternalServer message err.

(** [HTTPStatus]: the transport status of each code. *)
Definition HTTPStatus (e : DomainError) : Z :=
  match Code e with
  | ErrorCodeNotFound => 404
  | ErrorCodeBadRequest => 400
  | ErrorCodeValidation => 422
  | ErrorCodeTooManyRequests => 429
  | ErrorCodeInternalServer => 500
  end.

End errors.

(** ** Package [models] *)

Module models.

(** What [json.Unmarshal] stores in an [interface{}]. *)
Inductive JSONValue : Type :=
  | JNull
  | JBool (b : bool)
  | JNumber (x : float)
  | JString (s : string)
  | JArray (xs : list JSONValue)
  | JObject (fields : list (string * JSONValue)).

Record Item : Type := mkItem {
  ID : Z;
  Name : string;
  ImageURL : string;
  Description : string;
  Price : float;
  Rating : float;
  Specifications : gmap string JSONValue
}.

Record PriceRange : Type := mkPriceRange { price_Min : float; price_Max : float }.
Record RatingRange : Type := mkRatingRange { rating_Min : float; rating_Max : float }.

Record ComparisonDetails : Type := mkComparisonDetails {
  PriceRange_of : PriceRange;
  RatingRange_of : RatingRange;
  CommonSpecs : list string;
  UniqueSpecs : gmap Z (list string)
}.

Record CompareResponse : Type := mkCompareResponse {
  Items : list Item;
  Comparison : ComparisonDetails
}.

End models.

Import models.

(** ** Package [repositories]: the item store *)

(** A [context.Context] as the service sees it: an opaque value it
    hands to the store; [ctx_err] is what [ctx.Err()] reports. *)
Record Context : Type := mkContext { ctx_err : option error }.

Definition Background : Context := mkContext None.
Definition CanceledContext : Context := mkContext (Some ContextCanceled).

(** The read side of [ItemRepository].  A call returns either its
    value or a non-nil error. *)
Record ItemRepository : Type := mkRepo {
  GetAll : Context → error + list Item;
  GetByID : Context → Z → error + Item;
  GetByIDs : Context → list Z → error + list Item
}.

(** The store calls an operation of the service makes, in order. *)
Inductive RepoCall : Type :=
  | CallGetAll (ctx : Context)
  | CallGetByID (ctx : Context) (id : Z)
  | CallGetByIDs (ctx : Context) (ids : list Z).

(** A service operation yields the calls it made on the store and its
    Go result [(value, error)]. *)
Definition Traced (A : Type) : Type := list RepoCall * A.

Definition ret {A} (a : A) : Traced A := ([], a).
Definition bind {A B} (m : Traced A) (k : A → Traced B) : Traced B :=
  let '(t1, a) := m in let '(t2, b) := k a in (t1 ++ t2, b).
Definition call {A} (c : RepoCall) (r : A) : Traced A := ([c], r).

Notation "'let*' x ':=' m 'in' k" := (bind m (λ x, k))
  (at level 10, x name, m at level 100, k at level 200, only parsing).

Definition calls {A} (m : Traced A) : list RepoCall := m.1.
Definition result {A} (m : Traced A) : A := m.2.

(** ** Package [services] *)

Module services.
Import errors.

(** *** Helpers on identifier slices *)

(** The loop of [uniqueIDs]: [seen] is the [map[int64]bool] of the
    identifiers met so far ([seen[id]] is false for an absent key),
    [result] the slice appended to. *)
Fixpoint uniqueIDs_loop (ids : list Z) (seen : gmap Z bool) (result : list Z)
    : list Z :=
  match ids with
  | [] => result
  | id :: rest =>
      if negb (default false (seen !! id))
      then uniqueIDs_loop rest (<[id:=true]> seen) (result ++ [id])
      else uniqueIDs_loop rest seen result
  end.

Definition uniqueIDs (ids : list Z) : list Z := uniqueIDs_loop ids ∅ [].

(** [foundMap] of [missingItemIDs]. *)
Definition foundMap (found : list Item) : gmap Z bool :=
  foldl (λ m item, <[ID item:=true]> m) ∅ found.

Definition missingItemIDs (requested : list Z) (found : list Item) : list Z :=
  let fm := foundMap found in
  foldl (λ missing id,
           if negb (default false (fm !! id)) then missing ++ [id]
           else missing)
        [] requested.

(** *** Sorting as the Go library does it *)

(** [sort.Strings]: the strings in increasing byte-wise order. *)
Definition sortStrings (l : list string) : list string :=
  merge_sort String.le l.

(** The order of [sort.Float64s]: [x < y], with NaN before any
    other value. *)
Definition isNaN (x : float) : bool := negb (PrimFloat.eqb x x).
Definition lessFloat64 (x y : float) : bool :=
  PrimFloat.ltb x y || (isNaN x && negb (isNaN y)).

(** [sort.Float64s] sorts a slice of at most 12 elements by
    insertion, and [generateComparison] is reached with at most 10
    items, as many as a validated request has distinct identifiers.
    One step of that insertion sort, on the sorted prefix held last
    element first: [x] moves left while it is less than its
    neighbour.  On longer slices the library sorts otherwise and may
    order differently values that compare equal, such as the two
    zeros. *)
Fixpoint insertFloat64 (x : float) (rprefix : list float) : list float :=
  match rprefix with
  | [] => [x]
  | e :: r => if lessFloat64 x e then e :: insertFloat64 x r else x :: e :: r
  end.

Definition sortFloat64s (l : list float) : list float :=
  reverse (foldl (λ acc x, insertFloat64 x acc) [] l).

(** *** The comparison payload *)

(** [specCounts[specKey]++]. *)
Definition incrCount (specKey : string) (specCounts : gmap string nat)
    : gmap string nat :=
  <[specKey := S (default 0%nat (specCounts !! specKey))]> specCounts.

(** [for specKey := range item.Specifications { specCounts[specKey]++ }]. *)
Definition countSpecs (specCounts : gmap string nat) (item : Item)
    : gmap string nat :=
  map_fold (λ specKey _ acc, incrCount specKey acc) specCounts
           (Specifications item).

Definition specCounts_of (items : list Item) : gmap string nat :=
  foldl countSpecs ∅ items.

Definition findCommonSpecs (items : list Item) : list string :=
  match items with
  | [] => []
  | _ =>
      let specCounts := specCounts_of items in
      let totalItems := length items in
      let common :=
        map_fold (λ specKey count common,
                    if decide (count = totalItems)
                    then common ++ [specKey] else common)
                 [] specCounts in
      sortStrings common
  end.

(** [if specMap[key] == nil { specMap[key] = make(map[int64]bool) };
    specMap[key][item.ID] = true]. *)
Definition addOwner (id : Z) (key : string)
    (specMap : gmap string (gmap Z bool)) : gmap string (gmap Z bool) :=
  <[key := <[id:=true]> (default ∅ (specMap !! key))]> specMap.

Definition ownSpecs (specMap : gmap string (gmap Z bool)) (item : Item)
    : gmap string (gmap Z bool) :=
  map_fold (λ key _ acc, addOwner (ID item) key acc) specMap
           (Specifications item).

Definition specMap_of (items : list Item) : gmap string (gmap Z bool) :=
  foldl ownSpecs ∅ items.

(** [unique[id] = append(unique[id], spec)]. *)
Definition appendUnique (id : Z) (spec : string)
    (unique : gmap Z (list string)) : gmap Z (list string) :=
  <[id := default [] (unique !! id) ++ [spec]]> unique.

Definition collectUnique (specMap : gmap string (gmap Z bool))
    : gmap Z (list string) :=
  map_fold (λ spec ids unique,
              if decide (size ids = 1%nat)
              then map_fold (λ id _ u, appendUnique id spec u) unique ids
              else unique)
           ∅ specMap.

Definition findUniqueSpecs (items : list Item) : gmap Z (list string) :=
  sortStrings <$> collectUnique (specMap_of items).

Definition generateComparison (items : list Item) : ComparisonDetails :=
  match items with
  | [] => mkComparisonDetails (mkPriceRange 0%float 0%float)
                              (mkRatingRange 0%float 0%float) [] ∅
  | _ =>
      let prices := sortFloat64s (Price <$> items) in
      let ratings := sortFloat64s (Rating <$> items) in
      let priceRange :=
        mkPriceRange (default 0%float (head prices))
                     (default 0%float (last prices)) in
      let ratingRange :=
        mkRatingRange (default 0%float (head ratings))
                      (default 0%float (last ratings)) in
      let commonSpecs := findCommonSpecs items in
      let uniqueSpecs := findUniqueSpecs items in
      mkComparisonDetails priceRange ratingRange commonSpecs uniqueSpecs
  end.

(** *** The three operations of [ItemServiceImpl] *)

Definition GetAllItems (repo : ItemRepository) (ctx : Context)
    : Traced (DomainError + list Item) :=
  let* r := call (CallGetAll ctx) (GetAll repo ctx) in
  match r with
  | inl err =>
      ret (inl (NewInternalServerError "error al obtener los items" (Some err)))
  | inr items => ret (inr items)
  end.

Definition GetItemByID (repo : ItemRepository) (ctx : Context) (id : Z)
    : Traced (DomainError + Item) :=
  if id <=? 0 then
    ret (inl (NewValidationError "ID inválido" None))
  else
    let* r := call (CallGetByID ctx id) (GetByID repo ctx id) in
    match r with
    | inl err =>
        if Is err ErrNotFound
        then ret (inl (NewNotFoundError "Item" (AnyInt64 id)))
        else ret (inl (NewInternalServerError "error al obtener el item"
                                              (Some err)))
    | inr item => ret (inr item)
    end.

Definition CompareItems (repo : ItemRepository) (ctx : Context)
    (itemIDs : list Z) : Traced (DomainError + CompareResponse) :=
  if (length itemIDs <? 2)%nat then
    ret (inl (NewValidationError
                "se requieren al menos 2 items para comparar" None))
  else if (10 <? length itemIDs)%nat then
    ret (inl (NewValidationError
                "máximo 10 items pueden compararse a la vez" None))
  else
    let itemIDs := uniqueIDs itemIDs in
    let* r := call (CallGetByIDs ctx itemIDs) (GetByIDs repo ctx itemIDs) in
    match r with
    | inl err =>
        ret (inl (NewInternalServerError
                    "error al obtener los items para comparación" (Some err)))
    | inr items =>
        if negb (length items =? length itemIDs)%nat then
          let missingIDs := missingItemIDs itemIDs items in
          ret (inl (NewNotFoundError
                      ("Items con IDs " +:+ fmt_int64s missingIDs +:+
                       " no encontrados")
                      AnyNil))
        else
          let comparison := generateComparison items in
          ret (inr (mkCompareResponse items comparison))
    end.

End services.

Import services.

(** * The SQLite repository *)

(** ** Package [sqlite] *)

Module sqlite.

(** The columns of one row, in the order of the [SELECT], as
    [Scan] stores them. *)
Record Columns : Type := mkColumns {
  col_id : Z;
  col_name : string;
  col_image_url : string;
  col_description : string;
  col_price : float;
  col_rating : float;
  col_specifications : string
}.

(** A [*sql.Rows] as the reading loops see it: the outcome of [Scan]
    on each row for which [Next] reported true, in order, and what
    [Err] reports once [Next] reported false. *)
Record Rows : Type := mkRows {
  scans : list (error + Columns);
  rows_Err : option error
}.

(** What the repository calls outside the program: [QueryContext]
    and [QueryRowContext(...).Scan(...)] of the [*sql.DB], with the
    query text and its arguments, and [json.Unmarshal] into a
    [Specifications] map. *)
Record Backend : Type := mkBackend {
  QueryContext : Context → string → list Z → error + Rows;
  QueryRowContext : Context → string → list Z → error + Columns;
  Unmarshal : string → error + gmap string JSONValue
}.

(** The query texts are raw string literals: each line is indented by
    two tabs and the closing quote by one. *)
Definition nl : string := String (ascii_of_nat 10) "".
Definition tab : string := String (ascii_of_nat 9) "".
Definition line (text : string) : string := tab +:+ tab +:+ text +:+ nl.

Definition selectFrom : string :=
  nl +:+
  line "SELECT id, name, image_url, description, price, rating, specifications" +:+
  line "FROM items".

Definition queryAll : string := selectFrom +:+ line "ORDER BY id" +:+ tab.

Definition queryByID : string := selectFrom +:+ line "WHERE id = ?" +:+ tab.

(** The loop [for i := range ids] that builds the placeholders. *)
Fixpoint placeholders_loop (i : nat) (ids : list Z) (placeholders : string)
    : string :=
  match ids with
  | [] => placeholders
  | _ :: rest =>
      let placeholders :=
        if (0 <? i)%nat then placeholders +:+ "," else placeholders in
      placeholders_loop (S i) rest (placeholders +:+ "?")
  end.

Definition placeholders (ids : list Z) : string := placeholders_loop 0 ids "".

Definition queryByIDs (ids : list Z) : string :=
  selectFrom +:+
  line ("WHERE id IN (" +:+ placeholders ids +:+ ")") +:+
  line "ORDER BY id" +:+ tab.

Definition toItem (cols : Columns) (specs : gmap string JSONValue) : Item :=
  mkItem (col_id cols) (col_name cols) (col_image_url cols)
         (col_description cols) (col_price cols) (col_rating cols) specs.

(** The loop [for rows.Next()] of [GetAll] and of [GetByIDs], which
    differ in the messages of their errors only: [items] is the slice
    appended to. *)
Fixpoint readRows (b : Backend) (scanMessage unmarshalMessage : string)
    (rows : list (error + Columns)) (items : list Item) : error + list Item :=
  match rows with
  | [] => inr items
  | inl err :: _ => inl (WrapError scanMessage err)
  | inr cols :: rest =>
      match Unmarshal b (col_specifications cols) with
      | inl err => inl (WrapError unmarshalMessage err)
      | inr specs =>
          readRows b scanMessage unmarshalMessage rest
                   (items ++ [toItem cols specs])
      end
  end.

Definition GetAll (b : Backend) (ctx : Context) : error + list Item :=
  match QueryContext b ctx queryAll [] with
  | inl err => inl (WrapError "failed to query items" err)
  | inr rows =>
      match readRows b "failed to scan item"
                     "failed to unmarshal specifications" (scans rows) [] with
      | inl err => inl err
      | inr items =>
          match rows_Err rows with
          | Some err => inl (WrapError "error iterating rows" err)
          | None => inr items
          end
      end
  end.

Definition GetByID (b : Backend) (ctx : Context) (id : Z) : error + Item :=
  match QueryRowContext b ctx queryByID [id] with
  | inl SqlErrNoRows => inl ErrNotFound
  | inl err => inl (WrapError "error al consultar item" err)
  | inr cols =>
      match Unmarshal b (col_specifications cols) with
      | inl err =>
          inl (WrapError "error al deserializar las especificaciones" err)
      | inr specs => inr (toItem cols specs)
      end
  end.

Definition GetByIDs (b : Backend) (ctx : Context) (ids : list Z)
    : error + list Item :=
  if (length ids =? 0)%nat then inr []
  else
    match QueryContext b ctx (queryByIDs ids) ids with
    | inl err => inl (WrapError "error al consultar los items" err)
    | inr rows =>
        match readRows b "error al escanear el ítem"
                       "error al deserializar las especificaciones"
                       (scans rows) [] with
        | inl err => inl err
        | inr items =>
            match rows_Err rows with
            | Some err => inl (WrapError "error al iterar las filas" err)
            | None => inr items
            end
        end
    end.

(** The repository as the [ItemRepository] the service is given. *)
Definition repository (b : Backend) : ItemRepository :=
  mkRepo (GetAll b) (GetByID b) (GetByIDs b).

End sqlite.

(** * The transport layer *)

(** ** [strconv.ParseInt(s, 10, 64)] *)

Module strconv.

Definition ErrSyntax : error := ErrorString "invalid syntax".
Definition ErrRange : error := ErrorString "value out of range".

(** A [*NumError] of [ParseInt]: it wraps one of the two sentinels
    (its text, which quotes the input, is not modelled further). *)
Definition NumError (num : string) (err : error) : error :=
  WrapError ("strconv.ParseInt: parsing " +:+ num) err.

Definition maxUint64 : Z := 2 ^ 64 - 1.

(** The value of a decimal digit, [None] for any other byte. *)
Definition digit (c : ascii) : option Z :=
  let n := Z.of_N (N_of_ascii c) in
  if (48 <=? n) && (n <=? 57) then Some (n - 48) else None.

(** The loop of [ParseUint] in base 10: [n] is the value read so
    far. *)
Fixpoint parseUint_loop (s : string) (n : Z) : error + Z :=
  match s with
  | EmptyString => inr n
  | String c rest =>
      match digit c with
      | None => inl ErrSyntax
      | Some d =>
          if n >=? maxUint64 / 10 + 1 then inl ErrRange
          else
            let n1 := n * 10 + d in
            if n1 >? maxUint64 then inl ErrRange else parseUint_loop rest n1
      end
  end.

Definition ParseUint (s : string) : error + Z :=
  match s with
  | EmptyString => inl ErrSyntax
  | _ => parseUint_loop s 0
  end.

(** [ParseInt]: an optional sign, then [ParseUint]; a range error of
    [ParseUint] ends as a range error of [ParseInt] too, since the
    value it comes with is [maxUint64]. *)
Definition ParseInt (s0 : string) : error + Z :=
  match s0 with
  | EmptyString => inl (NumError s0 ErrSyntax)
  | String c rest =>
      let neg := bool_decide (c = "-"%char) in
      let s := if bool_decide (c = "+"%char) || neg then rest else s0 in
      match ParseUint s with
      | inl err => inl (NumError s0 err)
      | inr un =>
          if negb neg && (un >=? 2 ^ 63) then inl (NumError s0 ErrRange)
          else if neg && (un >? 2 ^ 63) then inl (NumError s0 ErrRange)
          else inr (if neg then - un else un)
      end
  end.

End strconv.

(** ** Package [errors]: the response of an error *)

Module errors_response.
Import errors.

Record ErrorResponse : Type := mkErrorResponse {
  Error : bool;
  Message : string;
  Code : ErrorCode
}.

Definition ToErrorResponse (e : DomainError) : ErrorResponse :=
  mkErrorResponse true (errors.Message e) (errors.Code e).

End errors_response.

(** ** Package [handlers] *)

Module handlers.
Import errors errors_response.

(** The interface [services.ItemService]: its methods return a Go
    [error], whatever its dynamic type. *)
Record ItemService : Type := mkItemService {
  svc_GetAllItems : Context → Traced (error + list Item);
  svc_GetItemByID : Context → Z → Traced (error + Item);
  svc_CompareItems : Context → list Z → Traced (error + CompareResponse)
}.

(** A result of ItemServiceImpl seen through the interface. *)
Definition as_interface {A} (m : Traced (DomainError + A)) : Traced (error + A) :=
  (m.1, match m.2 with inl e => inl (as_error e) | inr a => inr a end).

(** [services.NewItemService]. *)
Definition NewItemService (repo : ItemRepository) : ItemService :=
  mkItemService
    (λ ctx, as_interface (services.GetAllItems repo ctx))
    (λ ctx id, as_interface (services.GetItemByID repo ctx id))
    (λ ctx ids, as_interface (services.CompareItems repo ctx ids)).

(** [models.CompareRequest]. *)
Record CompareRequest : Type := mkCompareRequest { ItemIDs : list Z }.

(** What a handler reads of an [*http.Request]: its context, the
    URL parameter "id", and the outcome of decoding its body (of at
    most 1 MiB) into a CompareRequest. *)
Record Request : Type := mkRequest {
  req_ctx : Context;
  req_id : string;
  req_body : error + CompareRequest
}.

(** The value a handler hands to the JSON encoder. *)
Inductive Payload : Type :=
  | PayloadItems (items : list Item)
  | PayloadItem (item : Item)
  | PayloadCompare (response : CompareResponse)
  | PayloadError (response : ErrorResponse).

(** What a handler writes: the status, the Content-Type header and
    the encoded value. *)
Record Response : Type := mkResponse {
  StatusCode : Z;
  ContentType : string;
  Body : Payload
}.

Definition writeJSON (statusCode : Z) (data : Payload) : Response :=
  mkResponse statusCode "application/json" data.

(** [handleError]: the type assertion of [err] to a [*DomainError],
    with the fallback for an error of another type. *)
Definition handleError (err : error) : Response :=
  let domainErr :=
    match err with
    | DomainErr code message cause => NewDomainError code message cause
    | _ => NewInternalServerError "un error inesperado ha ocurrido" (Some err)
    end in
  writeJSON (HTTPStatus domainErr) (PayloadError (ToErrorResponse domainErr)).

Definition GetAllItems (service : ItemService) (r : Request) : Traced Response :=
  let* res := svc_GetAllItems service (req_ctx r) in
  match res with
  | inl err => ret (handleError err)
  | inr items => ret (writeJSON 200 (PayloadItems items))
  end.

Definition GetItemByID (service : ItemService) (r : Request) : Traced Response :=
  match strconv.ParseInt (req_id r) with
  | inl err =>
      ret (handleError
             (as_error (NewBadRequestError "formato de id de item inválido"
                                           (Some err))))
  | inr id =>
      let* res := svc_GetItemByID service (req_ctx r) id in
      match res with
      | inl err => ret (handleError err)
      | inr item => ret (writeJSON 200 (PayloadItem item))
      end
  end.

Definition CompareItems (service : ItemService) (r : Request) : Traced Response :=
  match req_body r with
  | inl err =>
      ret (handleError
             (as_error (NewBadRequestError
                          "cuerpo de la petición (body) inválido" (Some err))))
  | inr req =>
      let* res := svc_CompareItems service (req_ctx r) (ItemIDs req) in
      match res with
      | inl err => ret (handleError err)
      | inr response => ret (writeJSON 200 (PayloadCompare response))
      end
  end.

End handlers.

(** ** Package [middleware]: the registry of the rate limiter *)

Module middleware.

(** The arguments [getLimiter] creates a [rate.Limiter] with: the
    limit is [float64(rateLimit) / timeWindow.Seconds()] events per
    second, and [burst] its bucket size. *)
Record LimiterArgs : Type := mkLimiterArgs {
  limit_events : Z;
  limit_window : Z;
  burst : Z
}.

(** The limiters [rate.NewLimiter] has allocated so far; a
    [*rate.Limiter] is the position of its limiter here. *)
Definition Heap : Type := list LimiterArgs.

(** A [time.Time] and a [time.Duration] are counted in nanoseconds. *)
Definition Minute : Z := 60 * 1000000000.

Record clientLimiter : Type := mkClientLimiter {
  limiter : nat;
  lastAccess : Z
}.

(** The fields of [RateLimiter] other than its mutex, which makes
    [getLimiter] and [performCleanup] run one at a time, and the
    function that stops the cleanup goroutine. *)
Record RateLimiter : Type := mkRateLimiter {
  clients : gmap string clientLimiter;
  rateLimit : Z;
  timeWindow : Z;
  cleanupInterval : Z;
  limiterEvictionAge : Z
}.

Definition set_clients (rl : RateLimiter) (m : gmap string clientLimiter)
    : RateLimiter :=
  mkRateLimiter m (rateLimit rl) (timeWindow rl) (cleanupInterval rl)
                (limiterEvictionAge rl).

Definition NewRateLimiter (rateLimit timeWindow : Z) : RateLimiter :=
  mkRateLimiter ∅ rateLimit timeWindow (5 * Minute) (10 * Minute).

(** [getLimiter] at the time [now] that [time.Now()] reports: the new
    heap, the updated limiter registry and the limiter returned. *)
Definition getLimiter (heap : Heap) (rl : RateLimiter) (now : Z)
    (clientIP : string) : Heap * RateLimiter * nat :=
  match clients rl !! clientIP with
  | Some cl =>
      (heap,
       set_clients rl (<[clientIP := mkClientLimiter (limiter cl) now]> (clients rl)),
       limiter cl)
  | None =>
      let limiter := length heap in
      (heap ++ [mkLimiterArgs (rateLimit rl) (timeWindow rl) (rateLimit rl)],
       set_clients rl (<[clientIP := mkClientLimiter limiter now]> (clients rl)),
       limiter)
  end.

(** [performCleanup] at the time [now]: the loop ranges over the map
    it deletes from. *)
Definition performCleanup (rl : RateLimiter) (now : Z) : RateLimiter :=
  let cutoff := now + - limiterEvictionAge rl in
  set_clients rl
    (map_fold (λ ip cl m, if lastAccess cl <? cutoff then delete ip m else m)
              (clients rl) (clients rl)).

End middleware.

(** * Vocabulary of the properties *)

(** ** Identifier sequences *)

(** The elements of [l] whose value does not occur earlier in the
    input, [prefix] being the part of the input already read: the
    specification's "first occurrence of each identifier, in input
    order". *)
Fixpoint firstOccurrences_from (prefix l : list Z) : list Z :=
  match l with
  | [] => []
  | x :: rest =>
      if decide (x ∈ prefix)
      then firstOccurrences_from (prefix ++ [x]) rest
      else x :: firstOccurrences_from (prefix ++ [x]) rest
  end.

Definition firstOccurrences (l : list Z) : list Z := firstOccurrences_from [] l.

(** The number of distinct identifiers of a sequence. *)
Definition distinctCount (ids : list Z) : nat := size (list_to_set ids : gset Z).

(** [seen] marks exactly the identifiers of [prefix]. *)
Definition marks (seen : gmap Z bool) (prefix : list Z) : Prop :=
  ∀ id, default false (seen !! id) = true ↔ id ∈ prefix.

(** ** Messages *)

(** No byte of [s] is a space. *)
Fixpoint noSpace (s : string) : Prop :=
  match s with
  | EmptyString => True
  | String c rest => c ≠ " "%char ∧ noSpace rest
  end.

(** The message of the NOT_FOUND error that CompareItems builds for
    the slice [missing]. *)
Definition notFoundMessage (missing : list Z) : string :=
  errors.Message
    (errors.NewNotFoundError
       ("Items con IDs " +:+ errors.fmt_int64s missing +:+ " no encontrados")
       errors.AnyNil).

(** ** Items and their attributes *)

(** [key] is a key of the item's specification mapping. *)
Definition hasSpec (key : string) (item : Item) : Prop :=
  is_Some (Specifications item !! key).

Global Instance hasSpec_dec key item : Decision (hasSpec key item).
Proof. unfold hasSpec. apply _. Defined.

(** The identifiers of the items that have [key]. *)
Definition owners (key : string) (items : list Item) : list Z :=
  ID <$> filter (hasSpec key) items.

(** [specMap] records [key] for exactly one identifier, [x]. *)
Definition uniqueTo (specMap : gmap string (gmap Z bool)) (x : Z) (key : string)
    : Prop :=
  ∃ ids, specMap !! key = Some ids ∧ size ids = 1%nat ∧ is_Some (ids !! x).

(** Items in ascending order of identifier. *)
Definition sortedByID (items : list Item) : Prop :=
  Sorted Z.le (ID <$> items).

(** ** Stores and items used to run the service on concrete inputs *)

(** An item with the given identifier, price, rating and attribute
    names (every attribute has the value ["x"]). *)
Definition demoItem (id : Z) (price rating : float) (keys : list string) : Item :=
  mkItem id ("Item " +:+ pretty id) "" "" price rating
         (list_to_map ((λ k, (k, JString "x")) <$> keys)).

(** [ORDER BY id]. *)
Definition leID (a b : Item) : Prop := ID a ≤ ID b.

Global Instance leID_dec : RelDecision leID.
Proof. intros a b. unfold leID. apply _. Defined.

Global Instance leID_total : Total leID.
Proof. intros a b. unfold leID. lia. Qed.

Definition orderByID (rows : list Item) : list Item := merge_sort leID rows.

(** The SQLite repository over the rows [table] of table [items], as
    far as the service can observe it.  The driver is modelled: a
    query made under a context that is already done fails with the
    context's error, which the repository wraps with [fmt.Errorf];
    otherwise [GetAll] is [SELECT ... ORDER BY id], [GetByID] is
    [SELECT ... WHERE id = ?] with [sql.ErrNoRows] turned into
    [ErrNotFound], and [GetByIDs] returns no item for an empty slice
    and else is [SELECT ... WHERE id IN (...) ORDER BY id]. *)
Definition sqliteRepo (table : list Item) : ItemRepository :=
  mkRepo
    (λ ctx, match ctx_err ctx with
            | Some e => inl (WrapError "failed to query items" e)
            | None => inr (orderByID table)
            end)
    (λ ctx id, match ctx_err ctx with
               | Some e => inl (WrapError "error al consultar item" e)
               | None =>
                   match filter (λ it, ID it = id) table with
                   | it :: _ => inr it
                   | [] => inl ErrNotFound
                   end
               end)
    (λ ctx ids, match ids with
                | [] => inr []
                | _ =>
                    match ctx_err ctx with
                    | Some e => inl (WrapError "error al consultar los items" e)
                    | None => inr (orderByID (filter (λ it, ID it ∈ ids) table))
                    end
                end).

(** A store whose every call answers with the same fixed result, as a
    mock set up for one expectation does. *)
Definition fixedRepo (all : error + list Item) (one : error + Item)
    (many : error + list Item) : ItemRepository :=
  mkRepo (λ _, all) (λ _ _, one) (λ _ _, many).

Definition laptop : Item := demoItem 1 100 4.5 ["color"; "material"; "size"].
Definition phone : Item := demoItem 2 200 4 ["color"; "material"; "size"].
Definition tablet : Item := demoItem 3 150 4.75 ["brand"; "color"; "material"].

(** A store that answers a bulk lookup with item 2 before item 1. *)
Definition descendingRepo : ItemRepository :=
  fixedRepo (inr [phone; laptop]) (inl ErrNotFound) (inr [phone; laptop]).

(** A store that answers any bulk lookup with items 7 and 8. *)
Definition strayRepo : ItemRepository :=
  fixedRepo (inr []) (inl ErrNotFound)
            (inr [demoItem 7 10 3 ["color"]; demoItem 8 20 4 ["color"]]).

(** Two items that share the identifier 5 and the attribute
    "color". *)
Definition twin1 : Item := demoItem 5 10 3 ["color"].
Definition twin2 : Item := demoItem 5 20 4 ["color"].

(** ** Errors of the service *)

(** The error of a store call, if it failed. *)
Definition failure {A} (r : error + A) : option error :=
  match r with inl err => Some err | inr _ => None end.

(** The three ways in which the service turns a situation into a
    domain error [e], given the store calls [trace] it made and the
    failure [store_error] of its store call. *)
Definition translated (trace : list RepoCall) (store_error : option error)
    (e : errors.DomainError) : Prop :=
  (errors.Code e = ErrorCodeValidation ∧ errors.Err e = None ∧ trace = []) ∨
  (errors.Code e = ErrorCodeNotFound ∧ errors.Err e = None ∧
   length trace = 1%nat) ∨
  (errors.Code e = ErrorCodeInternalServer ∧ length trace = 1%nat ∧
   ∃ err, errors.Err e = Some err ∧ store_error = Some err).

(** ** Rows of the database *)

(** [item] is what the row [scan] holds: the scan succeeded, the
    specifications column decodes to the item's attributes, and every
    other field is its column. *)
Definition rowItem (b : sqlite.Backend) (scan : error + sqlite.Columns)
    (item : Item) : Prop :=
  ∃ cols, scan = inr cols ∧
    sqlite.Unmarshal b (sqlite.col_specifications cols) =
      inr (Specifications item) ∧
    item = sqlite.toItem cols (Specifications item).

(** [n] question marks separated by commas. *)
Definition questionMarks (n : nat) : string :=
  String.concat "," (replicate n "?").

(** [n] times a comma and a question mark. *)
Definition commaMarks (n : nat) : string :=
  foldr (λ _ acc, ",?" +:+ acc) "" (seq 0 n).

(** Backends for concrete runs: every query answers the given rows,
    a single-row query answers a row for identifier 1 and
    [sql.ErrNoRows] otherwise; a specifications column decodes to the
    empty map when it is the text of the empty object, and fails to
    decode otherwise. *)
Definition demoColumns (id : Z) (specs : string) : sqlite.Columns :=
  sqlite.mkColumns id "item" "" "" 1%float 1%float specs.

Definition demoRows : sqlite.Rows :=
  sqlite.mkRows [inr (demoColumns 2 "{}"); inr (demoColumns 1 "{}")] None.

(** Rows of which the second does not decode. *)
Definition brokenRows : sqlite.Rows :=
  sqlite.mkRows [inr (demoColumns 2 "{}"); inr (demoColumns 1 "{")] None.

Definition rowsBackend (rows : sqlite.Rows) : sqlite.Backend :=
  sqlite.mkBackend
    (λ _ _ _, inr rows)
    (λ _ _ args, if bool_decide (args = [1]) then inr (demoColumns 1 "{}")
                 else inl SqlErrNoRows)
    (λ text, if bool_decide (text = "{}") then inr ∅
             else inl (ErrorString "unexpected end of JSON input")).

Definition demoBackend : sqlite.Backend := rowsBackend demoRows.


(** ** Runs of the rate limiter *)

(** What happens to a rate limiter: a request of a client arrives
    and asks for its limiter, or the ticker of the cleanup goroutine
    fires; each at the time the clock shows then. *)
Inductive Event : Type :=
  | Arrival (clientIP : string) (now : Z)
  | Tick (now : Z).

Definition step (st : middleware.Heap * middleware.RateLimiter) (e : Event)
    : middleware.Heap * middleware.RateLimiter :=
  match e with
  | Arrival clientIP now => (middleware.getLimiter st.1 st.2 now clientIP).1
  | Tick now => (st.1, middleware.performCleanup st.2 now)
  end.

Definition run (events : list Event)
    (st : middleware.Heap * middleware.RateLimiter)
    : middleware.Heap * middleware.RateLimiter :=
  foldl step st events.

(** No two clients share a limiter, and every registered limiter has
    been allocated. *)
Definition isolated (st : middleware.Heap * middleware.RateLimiter) : Prop :=
  (∀ ip1 ip2 cl1 cl2,
     middleware.clients st.2 !! ip1 = Some cl1 →
     middleware.clients st.2 !! ip2 = Some cl2 →
     middleware.limiter cl1 = middleware.limiter cl2 → ip1 = ip2) ∧
  (∀ ip cl, middleware.clients st.2 !! ip = Some cl →
            (middleware.limiter cl < length st.1)%nat).

(** The entry of a client is stale at [now]: its last access lies
    more than the eviction age back. *)
Definition stale (rl : middleware.RateLimiter) (now : Z)
    (cl : middleware.clientLimiter) : Prop :=
  middleware.lastAccess cl < now - middleware.limiterEvictionAge rl.

Global Instance stale_dec rl now cl : Decision (stale rl now cl).
Proof. unfold stale. apply _. Defined.

(** ** Responses of the handlers *)

(** A response agrees with the store calls [trace] made for it: it
    is JSON; a payload comes with status 200 after one store call; an
    error comes with the status of its code, BAD_REQUEST and
    VALIDATION_ERROR before any store call, NOT_FOUND and
    INTERNAL_SERVER_ERROR after one. *)
Definition coherent (trace : list RepoCall) (resp : handlers.Response) : Prop :=
  handlers.ContentType resp = "application/json" ∧
  match handlers.Body resp with
  | handlers.PayloadError er =>
      errors_response.Error er = true ∧
      ((errors_response.Code er = ErrorCodeBadRequest ∧
        handlers.StatusCode resp = 400 ∧ trace = []) ∨
       (errors_response.Code er = ErrorCodeValidation ∧
        handlers.StatusCode resp = 422 ∧ trace = []) ∨
       (errors_response.Code er = ErrorCodeNotFound ∧
        handlers.StatusCode resp = 404 ∧ length trace = 1%nat) ∨
       (errors_response.Code er = ErrorCodeInternalServer ∧
        handlers.StatusCode resp = 500 ∧ length trace = 1%nat))
  | _ => handlers.StatusCode resp = 200 ∧ length trace = 1%nat
  end.

(** ** Floating-point values *)

(** [x] is not a NaN: it equals itself. *)
Definition notNaN (x : float) : Prop := isNaN x = false.

(** The sorted prefix of the insertion sort, held last element first,
    is in non-increasing order of [lessFloat64]. *)
Definition descending (acc : list float) : Prop :=
  StronglySorted (λ a b, lessFloat64 a b = false) acc.

(** [lo] and [hi] are values of [xs], and no value of [xs] comes
    before [lo] or after [hi] in the order of [sort.Float64s]. *)
Definition spans (xs : list float) (lo hi : float) : Prop :=
  lo ∈ xs ∧ hi ∈ xs ∧
  ∀ p, p ∈ xs → lessFloat64 p lo = false ∧ lessFloat64 hi p = false.

(** * Properties *)

(** ** Deduplication of identifiers *)

Section uniqueIDs_facts.

Lemma marks_empty : marks ∅ [].
Proof. intros id. rewrite lookup_empty. simpl. set_solver. Qed.

Lemma marks_insert seen prefix id :
  marks seen prefix → marks (<[id:=true]> seen) (prefix ++ [id]).
Proof.
  intros Hm id'. rewrite elem_of_app, list_elem_of_singleton.
  destruct (decide (id = id')) as [->|Hne].
  - rewrite lookup_insert_eq. simpl. tauto.
  - rewrite lookup_insert_ne by done. rewrite (Hm id'). naive_solver.
Qed.

Lemma marks_again seen prefix id :
  marks seen prefix → id ∈ prefix → marks seen (prefix ++ [id]).
Proof.
  intros Hm Hin id'. rewrite (Hm id'), elem_of_app, list_elem_of_singleton.
  naive_solver.
Qed.

Lemma uniqueIDs_loop_spec ids : ∀ seen result prefix,
  marks seen prefix →
  uniqueIDs_loop ids seen result = result ++ firstOccurrences_from prefix ids.
Proof.
  induction ids as [|id rest IH]; intros seen result prefix Hm; simpl.
  - by rewrite app_nil_r.
  - destruct (default false (seen !! id)) eqn:Hseen; simpl.
    + apply Hm in Hseen. rewrite decide_True by done.
      apply IH. by apply marks_again.
    + assert (id ∉ prefix) as Hnin.
      { intros Hin. apply Hm in Hin. congruence. }
      rewrite decide_False by done.
      rewrite (IH _ _ (prefix ++ [id])) by (by apply marks_insert).
      by rewrite <- app_assoc.
Qed.

Lemma uniqueIDs_firstOccurrences ids : uniqueIDs ids = firstOccurrences ids.
Proof. apply (uniqueIDs_loop_spec ids ∅ [] []), marks_empty. Qed.

Lemma elem_of_firstOccurrences_from prefix l x :
  x ∈ firstOccurrences_from prefix l ↔ x ∈ l ∧ x ∉ prefix.
Proof.
  revert prefix. induction l as [|y rest IH]; intros prefix; simpl.
  - set_solver.
  - destruct (decide (y ∈ prefix)) as [Hy|Hy].
    + rewrite IH, elem_of_cons, elem_of_app, list_elem_of_singleton.
      naive_solver.
    + rewrite elem_of_cons, IH, elem_of_cons, elem_of_app,
        list_elem_of_singleton.
      destruct (decide (x = y)) as [->|Hxy]; tauto.
Qed.

Lemma NoDup_firstOccurrences_from prefix l :
  NoDup (firstOccurrences_from prefix l).
Proof.
  revert prefix. induction l as [|y rest IH]; intros prefix; simpl.
  - constructor.
  - case_decide; [apply IH|]. constructor; [|apply IH].
    rewrite elem_of_firstOccurrences_from, elem_of_app, list_elem_of_singleton.
    naive_solver.
Qed.

Lemma sublist_firstOccurrences_from prefix l :
  sublist (firstOccurrences_from prefix l) l.
Proof.
  revert prefix. induction l as [|y rest IH]; intros prefix; simpl.
  - constructor.
  - case_decide; [apply sublist_cons | apply sublist_skip]; apply IH.
Qed.

Lemma firstOccurrences_from_NoDup prefix l :
  NoDup l → (∀ x, x ∈ l → x ∉ prefix) →
  firstOccurrences_from prefix l = l.
Proof.
  revert prefix. induction l as [|y rest IH]; intros prefix Hnd Hdisj; simpl.
  - done.
  - apply NoDup_cons in Hnd as [Hy Hnd].
    rewrite decide_False by (apply Hdisj; left).
    f_equal. apply IH; [done|]. intros x Hx.
    rewrite elem_of_app, list_elem_of_singleton.
    intros [Hp| ->]; [|done]. apply (Hdisj x); [by right|done].
Qed.

Lemma elem_of_uniqueIDs ids x : x ∈ uniqueIDs ids ↔ x ∈ ids.
Proof.
  rewrite uniqueIDs_firstOccurrences. unfold firstOccurrences.
  rewrite elem_of_firstOccurrences_from. set_solver.
Qed.

Lemma NoDup_uniqueIDs ids : NoDup (uniqueIDs ids).
Proof.
  rewrite uniqueIDs_firstOccurrences. apply NoDup_firstOccurrences_from.
Qed.

Lemma sublist_uniqueIDs ids : sublist (uniqueIDs ids) ids.
Proof.
  rewrite uniqueIDs_firstOccurrences. apply sublist_firstOccurrences_from.
Qed.

Lemma uniqueIDs_NoDup ids : NoDup ids → uniqueIDs ids = ids.
Proof.
  intros Hnd. rewrite uniqueIDs_firstOccurrences.
  apply firstOccurrences_from_NoDup; [done|]. intros x _. apply not_elem_of_nil.
Qed.

Lemma uniqueIDs_idemp ids : uniqueIDs (uniqueIDs ids) = uniqueIDs ids.
Proof. apply uniqueIDs_NoDup, NoDup_uniqueIDs. Qed.

Lemma length_uniqueIDs_le ids : (length (uniqueIDs ids) ≤ length ids)%nat.
Proof. apply sublist_length, sublist_uniqueIDs. Qed.

Lemma length_uniqueIDs ids : length (uniqueIDs ids) = distinctCount ids.
Proof.
  unfold distinctCount.
  rewrite <- (size_list_to_set (C:=gset Z) (uniqueIDs ids))
    by apply NoDup_uniqueIDs.
  f_equal. apply set_eq. intros x.
  rewrite !elem_of_list_to_set. apply elem_of_uniqueIDs.
Qed.

End uniqueIDs_facts.

(** ** The three outcomes of [CompareItems] *)

Section CompareItems_facts.
Import errors.
Context (repo : ItemRepository) (ctx : Context).

Lemma CompareItems_too_few ids :
  (length ids < 2)%nat →
  CompareItems repo ctx ids =
    ([], inl (NewValidationError
                "se requieren al menos 2 items para comparar" None)).
Proof.
  intros Hlen. unfold CompareItems.
  by rewrite (proj2 (Nat.ltb_lt _ _) Hlen).
Qed.

Lemma CompareItems_too_many ids :
  (10 < length ids)%nat →
  CompareItems repo ctx ids =
    ([], inl (NewValidationError
                "máximo 10 items pueden compararse a la vez" None)).
Proof.
  intros Hlen. unfold CompareItems.
  rewrite (proj2 (Nat.ltb_ge _ _)) by lia.
  by rewrite (proj2 (Nat.ltb_lt _ _) Hlen).
Qed.

Lemma CompareItems_calls ids :
  (2 ≤ length ids ≤ 10)%nat →
  calls (CompareItems repo ctx ids) = [CallGetByIDs ctx (uniqueIDs ids)].
Proof.
  intros [Hlo Hhi]. unfold CompareItems.
  rewrite !(proj2 (Nat.ltb_ge _ _)) by lia.
  unfold bind, call. simpl.
  destruct (GetByIDs repo ctx (uniqueIDs ids)) as [err|items]; [done|].
  by destruct (negb _).
Qed.

Lemma CompareItems_store_error ids err :
  (2 ≤ length ids ≤ 10)%nat →
  GetByIDs repo ctx (uniqueIDs ids) = inl err →
  result (CompareItems repo ctx ids) =
    inl (NewInternalServerError
           "error al obtener los items para comparación" (Some err)).
Proof.
  intros [Hlo Hhi] Hstore. unfold CompareItems.
  rewrite !(proj2 (Nat.ltb_ge _ _)) by lia.
  unfold bind, call. simpl. by rewrite Hstore.
Qed.

Lemma CompareItems_count_mismatch ids items :
  (2 ≤ length ids ≤ 10)%nat →
  GetByIDs repo ctx (uniqueIDs ids) = inr items →
  length items ≠ length (uniqueIDs ids) →
  result (CompareItems repo ctx ids) =
    inl (NewNotFoundError
           ("Items con IDs " +:+
            fmt_int64s (missingItemIDs (uniqueIDs ids) items) +:+
            " no encontrados") AnyNil).
Proof.
  intros [Hlo Hhi] Hstore Hne. unfold CompareItems.
  rewrite !(proj2 (Nat.ltb_ge _ _)) by lia.
  unfold bind, call. simpl. rewrite Hstore.
  by rewrite (proj2 (Nat.eqb_neq _ _) Hne).
Qed.

Lemma CompareItems_count_match ids items :
  (2 ≤ length ids ≤ 10)%nat →
  GetByIDs repo ctx (uniqueIDs ids) = inr items →
  length items = length (uniqueIDs ids) →
  result (CompareItems repo ctx ids) =
    inr (mkCompareResponse items (generateComparison items)).
Proof.
  intros [Hlo Hhi] Hstore Heq. unfold CompareItems.
  rewrite !(proj2 (Nat.ltb_ge _ _)) by lia.
  unfold bind, call. simpl. rewrite Hstore.
  by rewrite (proj2 (Nat.eqb_eq _ _) Heq).
Qed.

(** A successful comparison passed the length check, reached the
    store, and got as many items as it asked identifiers for. *)
Lemma CompareItems_success_inv ids resp :
  result (CompareItems repo ctx ids) = inr resp →
  (2 ≤ length ids ≤ 10)%nat ∧
  GetByIDs repo ctx (uniqueIDs ids) = inr (Items resp) ∧
  length (Items resp) = length (uniqueIDs ids) ∧
  Comparison resp = generateComparison (Items resp).
Proof.
  intros Hres.
  destruct (decide (length ids < 2)%nat) as [Hlt|Hge].
  { by rewrite CompareItems_too_few in Hres. }
  destruct (decide (10 < length ids)%nat) as [Hgt|Hle].
  { by rewrite CompareItems_too_many in Hres. }
  assert (2 ≤ length ids ≤ 10)%nat as Hlen by lia.
  split; [done|].
  destruct (GetByIDs repo ctx (uniqueIDs ids)) as [err|items] eqn:Hstore.
  { by rewrite (CompareItems_store_error _ err) in Hres. }
  destruct (decide (length items = length (uniqueIDs ids))) as [Heq|Hne].
  - rewrite (CompareItems_count_match _ items) in Hres by done.
    by simplify_eq.
  - by rewrite (CompareItems_count_mismatch _ items) in Hres.
Qed.

End CompareItems_facts.

(** ** Missing identifiers *)

Section missingItemIDs_facts.

Lemma foundMap_spec found id :
  default false (foundMap found !! id) = true ↔ id ∈ ID <$> found.
Proof.
  unfold foundMap.
  enough (∀ m : gmap Z bool, default false (foldl (λ m item, <[ID item:=true]> m) m found !! id)
               = true ↔ default false (m !! id) = true ∨ id ∈ ID <$> found) as H.
  { rewrite H, lookup_empty. simpl. naive_solver. }
  induction found as [|item found IH]; intros m; simpl.
  - rewrite elem_of_nil. tauto.
  - rewrite IH, elem_of_cons.
    destruct (decide (ID item = id)) as [<-|Hne].
    + rewrite lookup_insert_eq. simpl. tauto.
    + rewrite lookup_insert_ne by done. naive_solver.
Qed.

Lemma missingItemIDs_filter requested found :
  missingItemIDs requested found =
    filter (λ id, id ∉ ID <$> found) requested.
Proof.
  unfold missingItemIDs.
  enough (∀ acc,
    foldl (λ missing id,
             if negb (default false (foundMap found !! id))
             then missing ++ [id] else missing) acc requested
    = acc ++ filter (λ id, id ∉ ID <$> found) requested) as H by apply H.
  induction requested as [|id rest IH]; intros acc; simpl.
  - by rewrite app_nil_r.
  - rewrite IH. destruct (default false (foundMap found !! id)) eqn:Hf; simpl.
    + apply foundMap_spec in Hf. by rewrite filter_cons_False by tauto.
    + assert (id ∉ ID <$> found) as Hnin.
      { intros Hin. apply foundMap_spec in Hin. congruence. }
      rewrite filter_cons_True by done. by rewrite <- app_assoc.
Qed.

Lemma elem_of_missingItemIDs requested found id :
  id ∈ missingItemIDs requested found ↔ id ∈ requested ∧ id ∉ ID <$> found.
Proof. rewrite missingItemIDs_filter, list_elem_of_filter. tauto. Qed.

(** Fewer items than distinct requested identifiers: at least one
    identifier is missing. *)
Lemma missingItemIDs_nonempty requested found :
  NoDup requested → (length found < length requested)%nat →
  missingItemIDs requested found ≠ [].
Proof.
  intros Hnd Hlen Hnil.
  assert (requested ⊆ ID <$> found) as Hsub.
  { intros id Hid. destruct (decide (id ∈ ID <$> found)) as [|Hnin]; [done|].
    assert (id ∈ missingItemIDs requested found) as Hin
      by (by apply elem_of_missingItemIDs).
    rewrite Hnil in Hin. by apply elem_of_nil in Hin. }
  apply (NoDup_submseteq _ _ Hnd), submseteq_length in Hsub.
  rewrite length_fmap in Hsub. lia.
Qed.

End missingItemIDs_facts.

(** ** Validation of the identifier sequence *)

Section validation.
Import errors.

(** CompareItems on a sequence and on its deduplication: the same
    trace and result whenever both pass the length check. *)
Lemma CompareItems_uniqueIDs repo ctx ids :
  (length ids ≤ 10)%nat → (2 ≤ length (uniqueIDs ids))%nat →
  CompareItems repo ctx ids = CompareItems repo ctx (uniqueIDs ids).
Proof.
  intros Hhi Hlo. pose proof (length_uniqueIDs_le ids) as Hle.
  unfold CompareItems.
  rewrite !(proj2 (Nat.ltb_ge _ _)) by lia.
  by rewrite uniqueIDs_idemp.
Qed.

(** C1 as stated fails: [[1; 1]] has one distinct identifier, yet
    CompareItems passes the length check, queries the store for
    [[1]] and returns a comparison of the single item found. *)
Lemma CompareItems_duplicate_pair_reaches_store :
  Nat.lt (distinctCount [1; 1]) 2 ∧
  calls (CompareItems (sqliteRepo [laptop; phone]) Background [1; 1])
    = [CallGetByIDs Background [1]] ∧
  ¬ (calls (CompareItems (sqliteRepo [laptop; phone]) Background [1; 1]) = [] ∧
     ∃ e, result (CompareItems (sqliteRepo [laptop; phone]) Background [1; 1])
            = inl e ∧ Code e = ErrorCodeValidation).
Proof.
  split; [vm_compute; lia|]. split; [reflexivity|].
  intros [Hcalls _]. vm_compute in Hcalls. discriminate Hcalls.
Qed.

(** C1 (amended): the cardinality check of CompareItems is made on
    the raw length of the identifier sequence, before deduplication.
    A sequence of fewer than 2 or of more than 10 identifiers -- hence
    every sequence with more than 10 distinct values -- yields a
    validation error, and the store is not called. *)
Theorem CompareItems_validates_raw_length repo ctx ids :
  (length ids < 2 ∨ 10 < length ids ∨ 10 < distinctCount ids)%nat →
  calls (CompareItems repo ctx ids) = [] ∧
  ∃ e, result (CompareItems repo ctx ids) = inl e ∧
       Code e = ErrorCodeValidation.
Proof.
  intros Hlen.
  assert (length ids < 2 ∨ 10 < length ids)%nat as [Hlo|Hhi].
  { pose proof (length_uniqueIDs_le ids). rewrite length_uniqueIDs in *. lia. }
  - rewrite CompareItems_too_few by done. eauto.
  - rewrite CompareItems_too_many by done. eauto.
Qed.

Lemma CompareItems_validates_raw_length_witness :
  (Nat.lt (length [1]) 2 ∨ Nat.lt 10 (length [1]) ∨
   Nat.lt 10 (distinctCount [1])) ∧
  calls (CompareItems (sqliteRepo [laptop; phone]) Background [1]) = [] ∧
  ∃ e, result (CompareItems (sqliteRepo [laptop; phone]) Background [1])
         = inl e ∧ Code e = ErrorCodeValidation.
Proof.
  assert (Nat.lt (length [1]) 2 ∨ Nat.lt 10 (length [1]) ∨
   Nat.lt 10 (distinctCount [1]))
    as H by (left; simpl; lia).
  split; [exact H|].
  exact (CompareItems_validates_raw_length
           (sqliteRepo [laptop; phone]) Background [1] H).
Defined.

(** Eleven distinct identifiers are rejected as well. *)
Example CompareItems_eleven_ids :
  CompareItems (sqliteRepo [laptop; phone]) Background (seqZ 1 11) =
    ([], inl (NewValidationError
                "máximo 10 items pueden compararse a la vez" None)).
Proof. reflexivity. Qed.

(** C9: uniqueIDs keeps the first occurrence of each identifier, in
    input order (it equals [firstOccurrences]; its result has no
    duplicates, the same elements as the input and is a subsequence
    of it), it is idempotent, it maps [[1; 2; 1]] to [[1; 2]], and
    CompareItems on [[1; 2; 1]] and on [[1; 2]] makes the same store
    call and returns the same result, for every store. *)
Theorem uniqueIDs_first_occurrence_stable :
  (∀ ids, uniqueIDs ids = firstOccurrences ids ∧
          NoDup (uniqueIDs ids) ∧
          (∀ id, id ∈ uniqueIDs ids ↔ id ∈ ids) ∧
          sublist (uniqueIDs ids) ids ∧
          uniqueIDs (uniqueIDs ids) = uniqueIDs ids) ∧
  uniqueIDs [1; 2; 1] = [1; 2] ∧
  (∀ repo ctx,
     calls (CompareItems repo ctx [1; 2; 1]) = [CallGetByIDs ctx [1; 2]] ∧
     calls (CompareItems repo ctx [1; 2]) = [CallGetByIDs ctx [1; 2]] ∧
     CompareItems repo ctx [1; 2; 1] = CompareItems repo ctx [1; 2]).
Proof.
  split; [|split; [reflexivity|]].
  - intros ids. split; [apply uniqueIDs_firstOccurrences|].
    split; [apply NoDup_uniqueIDs|]. split; [apply elem_of_uniqueIDs|].
    split; [apply sublist_uniqueIDs | apply uniqueIDs_idemp].
  - intros repo ctx. split; [|split].
    + rewrite CompareItems_calls by (simpl; lia). reflexivity.
    + rewrite CompareItems_calls by (simpl; lia). reflexivity.
    + apply (CompareItems_uniqueIDs repo ctx [1; 2; 1]); vm_compute; lia.
Qed.

End validation.

(** ** Formatting identifiers *)

Section fmt_facts.
Import errors.

Lemma string_app_nil t : "" +:+ t = t.
Proof. reflexivity. Qed.

Lemma string_app_cons c s t : String c s +:+ t = String c (s +:+ t).
Proof. reflexivity. Qed.

Lemma string_app_assoc a b c : (a +:+ b) +:+ c = a +:+ (b +:+ c).
Proof.
  induction a as [|x a IH]; [done|].
  by rewrite !string_app_cons, IH.
Qed.

Lemma string_app_length a t :
  String.length (a +:+ t) = (String.length a + String.length t)%nat.
Proof. induction a as [|c a IH]; simpl; [done|]. by rewrite <- IH. Qed.

Lemma string_app_inj_r a b t : a +:+ t = b +:+ t → a = b.
Proof.
  revert b. induction a as [|c a IH]; intros [|d b] Heq.
  - done.
  - apply (f_equal String.length) in Heq.
    rewrite !string_app_length in Heq. simpl in Heq. lia.
  - apply (f_equal String.length) in Heq.
    rewrite !string_app_length in Heq. simpl in Heq. lia.
  - injection Heq as -> Heq. f_equal. by apply IH.
Qed.

Lemma pretty_N_char_noSpace x : pretty_N_char x ≠ " "%char.
Proof. unfold pretty_N_char. by repeat case_match. Qed.

Lemma pretty_N_go_noSpace x : ∀ s, noSpace s → noSpace (pretty_N_go x s).
Proof.
  induction (N.lt_wf_0 x) as [x _ IH]; intros s Hs.
  assert (x = 0 ∨ 0 < x)%N as [->|Hpos] by lia.
  - by rewrite pretty_N_go_0.
  - rewrite pretty_N_go_step by done. apply IH.
    + by apply N.div_lt.
    + split; [apply pretty_N_char_noSpace|done].
Qed.

Lemma pretty_N_go_nonempty x : ∀ s, s ≠ "" → pretty_N_go x s ≠ "".
Proof.
  induction (N.lt_wf_0 x) as [x _ IH]; intros s Hs.
  assert (x = 0 ∨ 0 < x)%N as [->|Hpos] by lia.
  - by rewrite pretty_N_go_0.
  - rewrite pretty_N_go_step by done. apply IH; [by apply N.div_lt|done].
Qed.

Lemma pretty_positive_noSpace (p : positive) : noSpace (pretty p).
Proof.
  unfold pretty, pretty_positive, pretty, pretty_N.
  rewrite decide_False by done. by apply pretty_N_go_noSpace.
Qed.

Lemma pretty_Z_noSpace (n : Z) : noSpace (pretty n).
Proof.
  destruct n as [|p|p]; unfold pretty, pretty_Z.
  - simpl. split; [discriminate|done].
  - apply pretty_positive_noSpace.
  - split; [discriminate|]. apply pretty_positive_noSpace.
Qed.

Lemma pretty_Z_nonempty (n : Z) : pretty n ≠ "".
Proof.
  destruct n as [|p|p]; unfold pretty, pretty_Z; [done| |done].
  unfold pretty, pretty_positive, pretty, pretty_N.
  rewrite decide_False by done.
  rewrite pretty_N_go_step by lia. by apply pretty_N_go_nonempty.
Qed.

Lemma noSpace_app_space s t : ¬ noSpace (s +:+ " " +:+ t).
Proof.
  induction s as [|c s IH];
    repeat rewrite ?string_app_nil, ?string_app_cons; simpl.
  - by intros [? _].
  - intros [_ ?]. by apply IH.
Qed.

Lemma split_at_space s1 s2 t1 t2 :
  noSpace s1 → noSpace s2 →
  s1 +:+ " " +:+ t1 = s2 +:+ " " +:+ t2 → s1 = s2 ∧ t1 = t2.
Proof.
  revert s2. induction s1 as [|c s1 IH]; intros [|d s2] Hs1 Hs2 Heq;
    repeat rewrite ?string_app_nil, ?string_app_cons in Heq; simpl in *.
  - by injection Heq as ->.
  - injection Heq as <- _. by destruct Hs2.
  - injection Heq as -> _. by destruct Hs1.
  - injection Heq as -> Heq. destruct Hs1 as [_ Hs1], Hs2 as [_ Hs2].
    destruct (IH s2 Hs1 Hs2 Heq) as [-> ->]. done.
Qed.

Lemma fmt_join_cons n rest :
  fmt_join (n :: rest) =
    match rest with
    | [] => pretty n
    | _ => pretty n +:+ " " +:+ fmt_join rest
    end.
Proof. by destruct rest. Qed.

Lemma fmt_join_nonempty n rest : fmt_join (n :: rest) ≠ "".
Proof.
  rewrite fmt_join_cons. pose proof (pretty_Z_nonempty n) as Hn.
  destruct rest; [done|]. by destruct (pretty n).
Qed.

(** The text printed for a slice of identifiers determines the slice. *)
Lemma fmt_join_inj l1 : ∀ l2, fmt_join l1 = fmt_join l2 → l1 = l2.
Proof.
  induction l1 as [|n r1 IH]; intros [|m r2] Heq.
  - done.
  - symmetry in Heq. by apply fmt_join_nonempty in Heq.
  - by apply fmt_join_nonempty in Heq.
  - rewrite !fmt_join_cons in Heq.
    destruct r1 as [|n' r1], r2 as [|m' r2].
    + by apply (inj pretty) in Heq as ->.
    + destruct (noSpace_app_space (pretty m) (fmt_join (m' :: r2))).
      rewrite <- Heq. apply pretty_Z_noSpace.
    + destruct (noSpace_app_space (pretty n) (fmt_join (n' :: r1))).
      rewrite Heq. apply pretty_Z_noSpace.
    + apply split_at_space in Heq as [Hhd Htl]; [|apply pretty_Z_noSpace..].
      apply (inj pretty) in Hhd as ->. by rewrite (IH _ Htl).
Qed.

Lemma fmt_int64s_inj l1 l2 : fmt_int64s l1 = fmt_int64s l2 → l1 = l2.
Proof.
  unfold fmt_int64s. rewrite !string_app_cons, !string_app_nil.
  intros [= Heq]. by apply string_app_inj_r, fmt_join_inj in Heq.
Qed.

End fmt_facts.

(** ** Completeness of the store's answer *)

Section completeness.
Import errors.

Lemma notFoundMessage_inj l1 l2 :
  notFoundMessage l1 = notFoundMessage l2 → l1 = l2.
Proof.
  unfold notFoundMessage, NewNotFoundError. simpl. intros Heq.
  apply string_app_inj_r, (inj (String.app "Items con IDs ")) in Heq.
  by apply string_app_inj_r, fmt_int64s_inj in Heq.
Qed.

(** C6: for a validated, duplicate-free identifier sequence, when the
    store returns fewer items than identifiers were requested,
    CompareItems fails with a NOT_FOUND error whose message prints
    [missingItemIDs ids items] (and no other slice has that message):
    exactly the requested identifiers that are the identifier of no
    returned item, in request order; at least one is missing. *)
Theorem CompareItems_names_missing_ids repo ctx ids items :
  (2 ≤ length ids ≤ 10)%nat → NoDup ids →
  GetByIDs repo ctx ids = inr items →
  (length items < length ids)%nat →
  result (CompareItems repo ctx ids) =
    inl (NewDomainError ErrorCodeNotFound
           (notFoundMessage (missingItemIDs ids items)) None) ∧
  notFoundMessage (missingItemIDs ids items) =
    "Items con IDs " +:+ fmt_int64s (missingItemIDs ids items) +:+
    " no encontrados with id <nil> not found" ∧
  (∀ other, notFoundMessage other = notFoundMessage (missingItemIDs ids items)
            → other = missingItemIDs ids items) ∧
  (∀ id, id ∈ missingItemIDs ids items ↔ id ∈ ids ∧ id ∉ ID <$> items) ∧
  missingItemIDs ids items = filter (λ id, id ∉ ID <$> items) ids ∧
  missingItemIDs ids items ≠ [].
Proof.
  intros Hlen Hnd Hstore Hfew.
  split; [|split; [|split; [|split; [|split]]]].
  - rewrite (CompareItems_count_mismatch repo ctx ids items);
      rewrite ?uniqueIDs_NoDup by done; [done..|lia].
  - unfold notFoundMessage, NewNotFoundError. simpl.
    rewrite !string_app_assoc. reflexivity.
  - intros other. apply notFoundMessage_inj.
  - intros id. apply elem_of_missingItemIDs.
  - apply missingItemIDs_filter.
  - by apply missingItemIDs_nonempty.
Qed.

Lemma CompareItems_names_missing_ids_witness :
  result (CompareItems (sqliteRepo [laptop; phone]) Background [3; 1; 2]) =
    inl (NewDomainError ErrorCodeNotFound
           "Items con IDs [3] no encontrados with id <nil> not found" None) ∧
  missingItemIDs [3; 1; 2] [laptop; phone] = [3].
Proof.
  assert (Nat.le 2 (length [3; 1; 2]) ∧ Nat.le (length [3; 1; 2]) 10) as Hlen by (simpl; lia).
  assert (NoDup [3; 1; 2]) as Hnd by (apply (bool_decide_unpack _); vm_compute; exact I).
  assert (GetByIDs (sqliteRepo [laptop; phone]) Background [3; 1; 2]
          = inr [laptop; phone]) as Hstore by reflexivity.
  assert (Nat.lt (length [laptop; phone]) (length [3; 1; 2])) as Hfew
    by (simpl; lia).
  destruct (CompareItems_names_missing_ids _ _ _ _ Hlen Hnd Hstore Hfew)
    as (Hres & _).
  split; [exact Hres | reflexivity].
Defined.

(** C10: the completeness check of CompareItems compares counts
    only.  For a request that passed validation and a store call
    that succeeded, the result is a NOT_FOUND error exactly when the
    number of returned items differs from the number of distinct
    requested identifiers; when the two are equal the store's items
    are returned as the comparison's items, whatever their
    identifiers are. *)
Theorem CompareItems_completeness_is_count_only repo ctx ids items :
  (2 ≤ length ids ≤ 10)%nat →
  GetByIDs repo ctx (uniqueIDs ids) = inr items →
  ((∃ e, result (CompareItems repo ctx ids) = inl e ∧
         Code e = ErrorCodeNotFound)
     ↔ length items ≠ distinctCount ids) ∧
  (length items = distinctCount ids →
   result (CompareItems repo ctx ids) =
     inr (mkCompareResponse items (generateComparison items))).
Proof.
  intros Hlen Hstore. rewrite <- length_uniqueIDs.
  destruct (decide (length items = length (uniqueIDs ids))) as [Heq|Hne].
  - rewrite (CompareItems_count_match repo ctx ids items) by done.
    split; [|done]. split; [|done]. by intros (e & ? & _).
  - rewrite (CompareItems_count_mismatch repo ctx ids items) by done.
    split; [|done]. split; [done|]. intros _. eauto.
Qed.

Lemma CompareItems_completeness_is_count_only_witness :
  result (CompareItems strayRepo Background [1; 2]) =
    inr (mkCompareResponse
           [demoItem 7 10 3 ["color"]; demoItem 8 20 4 ["color"]]
           (generateComparison
              [demoItem 7 10 3 ["color"]; demoItem 8 20 4 ["color"]])).
Proof.
  assert (Nat.le 2 (length [1; 2]) ∧ Nat.le (length [1; 2]) 10) as Hlen by (simpl; lia).
  assert (GetByIDs strayRepo Background (uniqueIDs [1; 2])
          = inr [demoItem 7 10 3 ["color"]; demoItem 8 20 4 ["color"]])
    as Hstore by reflexivity.
  apply (CompareItems_completeness_is_count_only _ _ _ _ Hlen Hstore).
  reflexivity.
Defined.

End completeness.

(** ** Translation of store failures *)

Section error_translation.
Import errors.

Lemma GetItemByID_invalid repo ctx id :
  id ≤ 0 →
  GetItemByID repo ctx id = ([], inl (NewValidationError "ID inválido" None)).
Proof.
  intros Hid. unfold GetItemByID. by rewrite (proj2 (Z.leb_le _ _) Hid).
Qed.

Lemma GetItemByID_valid repo ctx id :
  0 < id →
  GetItemByID repo ctx id =
    ([CallGetByID ctx id],
     match GetByID repo ctx id with
     | inl err =>
         if Is err ErrNotFound
         then inl (NewNotFoundError "Item" (AnyInt64 id))
         else inl (NewInternalServerError "error al obtener el item" (Some err))
     | inr item => inr item
     end).
Proof.
  intros Hid. unfold GetItemByID. rewrite (proj2 (Z.leb_gt _ _) Hid).
  unfold bind, call. simpl.
  destruct (GetByID repo ctx id) as [err|item]; [|done].
  by destruct (Is err ErrNotFound).
Qed.

Lemma GetAllItems_unfold repo ctx :
  GetAllItems repo ctx =
    ([CallGetAll ctx],
     match GetAll repo ctx with
     | inl err =>
         inl (NewInternalServerError "error al obtener los items" (Some err))
     | inr items => inr items
     end).
Proof.
  unfold GetAllItems, bind, call. simpl. by destruct (GetAll repo ctx).
Qed.

(** A domain error that wraps [err] still answers [errors.Is] for
    every target [err] answers for. *)
Lemma Is_wrapped_cause code msg err target :
  Is err target = true → Is (DomainErr code msg (Some err)) target = true.
Proof. intros H. simpl. rewrite H. apply orb_true_r. Qed.

(** C7: GetItemByID rejects an identifier [id <= 0] with a validation
    error without calling the store; for a positive identifier, a
    store error that [errors.Is] ErrNotFound becomes the NOT_FOUND
    error whose message carries the requested identifier, and every
    other store error becomes an INTERNAL_SERVER_ERROR whose [Err]
    is that store error. *)
Theorem GetItemByID_translates_errors repo ctx id :
  (id ≤ 0 →
   calls (GetItemByID repo ctx id) = [] ∧
   ∃ e, result (GetItemByID repo ctx id) = inl e ∧
        Code e = ErrorCodeValidation) ∧
  (∀ err, 0 < id → GetByID repo ctx id = inl err →
     Is err ErrNotFound = true →
     result (GetItemByID repo ctx id) =
       inl (NewDomainError ErrorCodeNotFound
              ("Item with id " +:+ pretty id +:+ " not found") None)) ∧
  (∀ err, 0 < id → GetByID repo ctx id = inl err →
     Is err ErrNotFound = false →
     result (GetItemByID repo ctx id) =
       inl (NewDomainError ErrorCodeInternalServer
              "error al obtener el item" (Some err))).
Proof.
  split; [|split].
  - intros Hid. rewrite GetItemByID_invalid by done. eauto.
  - intros err Hid Hstore Hnf. rewrite GetItemByID_valid by done.
    simpl. by rewrite Hstore, Hnf.
  - intros err Hid Hstore Hnf. rewrite GetItemByID_valid by done.
    simpl. by rewrite Hstore, Hnf.
Qed.

(** The three cases of C7 on concrete stores: identifier 0, an
    absent identifier 999, and a store whose connection is gone. *)
Lemma GetItemByID_translates_errors_witness :
  (calls (GetItemByID (sqliteRepo [laptop]) Background 0) = [] ∧
   ∃ e, result (GetItemByID (sqliteRepo [laptop]) Background 0) = inl e ∧
        Code e = ErrorCodeValidation) ∧
  result (GetItemByID (sqliteRepo [laptop]) Background 999) =
    inl (NewDomainError ErrorCodeNotFound "Item with id 999 not found" None) ∧
  result (GetItemByID (fixedRepo (inr []) (inl SqlErrConnDone) (inr []))
                      Background 1) =
    inl (NewDomainError ErrorCodeInternalServer "error al obtener el item"
           (Some SqlErrConnDone)).
Proof.
  split; [|split].
  - apply (GetItemByID_translates_errors (sqliteRepo [laptop]) Background 0).
    lia.
  - apply (proj1 (proj2 (GetItemByID_translates_errors
                           (sqliteRepo [laptop]) Background 999))
             ErrNotFound); [lia|reflexivity|reflexivity].
  - apply (proj2 (proj2 (GetItemByID_translates_errors
                           (fixedRepo (inr []) (inl SqlErrConnDone) (inr []))
                           Background 1))
             SqlErrConnDone); [lia|reflexivity|reflexivity].
Defined.

(** C8 as stated fails: under a cancelled context the store call of
    each operation fails with a wrapped [context.Canceled], and the
    operation returns the INTERNAL_SERVER_ERROR (transport status
    500) it returns for any other store failure. *)
Lemma cancelled_store_call_is_storage_error :
  let repo := sqliteRepo [laptop; phone] in
  (GetAll repo CanceledContext
     = inl (WrapError "failed to query items" ContextCanceled) ∧
   result (GetAllItems repo CanceledContext)
     = inl (NewDomainError ErrorCodeInternalServer "error al obtener los items"
              (Some (WrapError "failed to query items" ContextCanceled)))) ∧
  (∃ e, result (GetItemByID repo CanceledContext 1) = inl e ∧
        Code e = ErrorCodeInternalServer ∧ HTTPStatus e = 500) ∧
  (∃ e, result (CompareItems repo CanceledContext [1; 2]) = inl e ∧
        Code e = ErrorCodeInternalServer ∧ HTTPStatus e = 500).
Proof.
  simpl. split; [split; reflexivity|]. split; eexists; (split; [reflexivity|]);
    split; reflexivity.
Qed.

(** C8 (amended): every operation hands the caller's context to its
    store call unchanged, and when that call fails with an error
    that [errors.Is] [context.Canceled] the operation returns, as
    for any other store failure, an INTERNAL_SERVER_ERROR whose
    [Err] is the store's error; the cancellation is not a result
    kind of its own, it stays reachable through [Unwrap]. *)
Theorem store_cancellation_is_wrapped repo ctx err :
  Is err ContextCanceled = true →
  (calls (GetAllItems repo ctx) = [CallGetAll ctx] ∧
   (GetAll repo ctx = inl err →
    result (GetAllItems repo ctx) =
      inl (NewInternalServerError "error al obtener los items" (Some err)))) ∧
  (∀ id, 0 < id →
     calls (GetItemByID repo ctx id) = [CallGetByID ctx id] ∧
     (GetByID repo ctx id = inl err → Is err ErrNotFound = false →
      result (GetItemByID repo ctx id) =
        inl (NewInternalServerError "error al obtener el item" (Some err)))) ∧
  (∀ ids, (2 ≤ length ids ≤ 10)%nat →
     calls (CompareItems repo ctx ids) = [CallGetByIDs ctx (uniqueIDs ids)] ∧
     (GetByIDs repo ctx (uniqueIDs ids) = inl err →
      result (CompareItems repo ctx ids) =
        inl (NewInternalServerError
               "error al obtener los items para comparación" (Some err)))) ∧
  (∀ msg, Is (as_error (NewInternalServerError msg (Some err)))
             ContextCanceled = true).
Proof.
  intros Hcancel. split; [|split; [|split]].
  - rewrite GetAllItems_unfold. split; [done|]. simpl. by intros ->.
  - intros id Hid. rewrite GetItemByID_valid by done. split; [done|].
    simpl. by intros -> ->.
  - intros ids Hlen. split; [by apply CompareItems_calls|].
    by apply CompareItems_store_error.
  - intros msg. by apply Is_wrapped_cause.
Qed.

Lemma store_cancellation_is_wrapped_witness :
  result (GetAllItems (sqliteRepo [laptop; phone]) CanceledContext) =
    inl (NewInternalServerError "error al obtener los items"
           (Some (WrapError "failed to query items" ContextCanceled))).
Proof.
  assert (Is (WrapError "failed to query items" ContextCanceled)
             ContextCanceled = true) as Hcancel by reflexivity.
  apply (proj1 (store_cancellation_is_wrapped
                  (sqliteRepo [laptop; phone]) CanceledContext _ Hcancel)).
  reflexivity.
Defined.

End error_translation.

(** ** Order of the returned items *)

Section item_order.
Import errors.

(** C3 as stated fails: when the store returns item 2 before item 1
    the successful result of CompareItems lists them in that order. *)
Lemma CompareItems_keeps_descending_order :
  ∃ resp, result (CompareItems descendingRepo Background [1; 2]) = inr resp ∧
          ID <$> Items resp = [2; 1] ∧
          ¬ sortedByID (Items resp).
Proof.
  eexists. split; [reflexivity|]. split; [reflexivity|].
  unfold sortedByID. simpl. intros Hs.
  apply Sorted_inv in Hs as [_ Hhd]. apply HdRel_inv in Hhd. lia.
Qed.

(** C3 (amended): the items of a successful CompareItems result are
    the list the store returned for the deduplicated identifiers, in
    the store's order; the service does not reorder them, so they
    are in ascending identifier order exactly when the store
    returned them so. *)
Theorem CompareItems_items_in_store_order repo ctx ids resp :
  result (CompareItems repo ctx ids) = inr resp →
  GetByIDs repo ctx (uniqueIDs ids) = inr (Items resp) ∧
  ∀ items, GetByIDs repo ctx (uniqueIDs ids) = inr items →
           Items resp = items ∧ (sortedByID (Items resp) ↔ sortedByID items).
Proof.
  intros Hres. apply CompareItems_success_inv in Hres as (_ & Hstore & _).
  split; [done|]. intros items Hitems. rewrite Hstore in Hitems.
  by simplify_eq.
Qed.

Lemma CompareItems_items_in_store_order_witness :
  GetByIDs descendingRepo Background (uniqueIDs [1; 2]) =
    inr (Items (mkCompareResponse [phone; laptop]
                  (generateComparison [phone; laptop]))).
Proof.
  assert (result (CompareItems descendingRepo Background [1; 2]) =
          inr (mkCompareResponse [phone; laptop]
                 (generateComparison [phone; laptop]))) as Hres
    by reflexivity.
  exact (proj1 (CompareItems_items_in_store_order _ _ _ _ Hres)).
Defined.

(** With the SQLite repository the order is the one of its query:
    a successful comparison lists the items by ascending identifier. *)
Lemma CompareItems_sqlite_sorted table ctx ids resp :
  result (CompareItems (sqliteRepo table) ctx ids) = inr resp →
  sortedByID (Items resp).
Proof.
  intros Hres. apply CompareItems_success_inv in Hres as (_ & Hstore & _).
  unfold sortedByID. simpl in Hstore.
  destruct (uniqueIDs ids) as [|id rest].
  { injection Hstore as <-. constructor. }
  destruct (ctx_err ctx); [done|]. injection Hstore as <-.
  apply (Sorted_fmap ID leID Z.le); [done|].
  apply (Sorted_merge_sort leID).
Qed.

End item_order.

(** ** Sorting attribute names *)

Section sortStrings_facts.

Lemma Sorted_sortStrings l : Sorted String.le (sortStrings l).
Proof. apply (Sorted_merge_sort String.le). Qed.

Lemma sortStrings_Permutation l : sortStrings l ≡ₚ l.
Proof. apply (merge_sort_Permutation String.le). Qed.

Lemma elem_of_sortStrings l k : k ∈ sortStrings l ↔ k ∈ l.
Proof. by rewrite sortStrings_Permutation. Qed.

Lemma NoDup_sortStrings l : NoDup (sortStrings l) ↔ NoDup l.
Proof. by rewrite sortStrings_Permutation. Qed.

(** Whatever algorithm sorts the slice, the result is this list: a
    sorted rearrangement of [l] is unique. *)
Lemma sortStrings_unique l l' :
  l' ≡ₚ l → Sorted String.le l' → l' = sortStrings l.
Proof.
  intros Hperm Hsorted. apply (Sorted_unique String.le); [done| |].
  - apply Sorted_sortStrings.
  - by rewrite sortStrings_Permutation.
Qed.

(** In particular the order in which a Go map was ranged over to
    build the slice does not show in the sorted slice. *)
Lemma sortStrings_perm l l' : l ≡ₚ l' → sortStrings l = sortStrings l'.
Proof.
  intros Hperm. apply sortStrings_unique; [|apply Sorted_sortStrings].
  by rewrite sortStrings_Permutation.
Qed.

Lemma sortStrings_nil_inv l : sortStrings l = [] → l = [].
Proof.
  intros Hnil. apply Permutation_nil_r. by rewrite <- Hnil, sortStrings_Permutation.
Qed.

End sortStrings_facts.

(** ** Common attributes *)

Section findCommonSpecs_facts.

Lemma countSpecs_lookup_raw specCounts item key :
  countSpecs specCounts item !! key =
    match Specifications item !! key with
    | Some _ => Some (S (default 0%nat (specCounts !! key)))
    | None => specCounts !! key
    end.
Proof.
  unfold countSpecs. revert key.
  apply (map_fold_weak_ind
           (λ r (specs : gmap string JSONValue), ∀ key,
              r !! key = match specs !! key with
                         | Some _ => Some (S (default 0%nat (specCounts !! key)))
                         | None => specCounts !! key
                         end)).
  - intros key. by rewrite lookup_empty.
  - intros k v specs r Hfresh IH key. unfold incrCount.
    destruct (decide (k = key)) as [->|Hne].
    + rewrite !lookup_insert_eq. by rewrite (IH key), Hfresh.
    + rewrite !lookup_insert_ne by done. apply IH.
Qed.

Lemma countSpecs_lookup specCounts item key :
  countSpecs specCounts item !! key =
    if decide (hasSpec key item)
    then Some (S (default 0%nat (specCounts !! key)))
    else specCounts !! key.
Proof.
  rewrite countSpecs_lookup_raw. unfold hasSpec.
  destruct (decide _) as [[v Hv]|Hnone].
  - by rewrite Hv.
  - destruct (Specifications item !! key); [|done]. destruct Hnone. eauto.
Qed.

Lemma foldl_countSpecs_lookup items : ∀ specCounts key,
  foldl countSpecs specCounts items !! key =
    match length (filter (hasSpec key) items) with
    | O => specCounts !! key
    | S n => Some (S n + default 0 (specCounts !! key))%nat
    end.
Proof.
  induction items as [|item items IH]; intros specCounts key; simpl; [done|].
  rewrite IH, countSpecs_lookup.
  destruct (decide (hasSpec key item)) as [Hhas|Hnot].
  - rewrite filter_cons_True by done. simpl.
    destruct (length (filter (hasSpec key) items)); simpl; f_equal; lia.
  - by rewrite filter_cons_False by done.
Qed.

(** [specCounts[key]] is the number of items that have [key]. *)
Lemma specCounts_of_lookup items key n :
  specCounts_of items !! key = Some n ↔
  length (filter (hasSpec key) items) = n ∧ n ≠ 0%nat.
Proof.
  unfold specCounts_of. rewrite foldl_countSpecs_lookup, lookup_empty. simpl.
  destruct (length (filter (hasSpec key) items)) as [|m].
  - split; [done|]. intros [<- ?]. done.
  - rewrite Nat.add_0_r. split.
    + intros [= <-]. done.
    + intros [<- _]. done.
Qed.

(** The slice [common] before it is sorted. *)
Lemma collect_common_spec (total : nat) (specCounts : gmap string nat) :
  let common :=
    map_fold (λ specKey count common,
                if decide (count = total) then common ++ [specKey] else common)
             [] specCounts in
  (∀ key, key ∈ common ↔ specCounts !! key = Some total) ∧ NoDup common.
Proof.
  apply (map_fold_weak_ind
           (λ (common : list string) (m : gmap string nat),
              (∀ key, key ∈ common ↔ m !! key = Some total) ∧ NoDup common)).
  - split; [|constructor]. intros key. rewrite lookup_empty, elem_of_nil.
    naive_solver.
  - intros k count m common Hfresh [IH Hnd].
    assert (k ∉ common) as Hk.
    { intros Hin. apply IH in Hin. congruence. }
    destruct (decide (count = total)) as [->|Hne].
    + split.
      * intros key. rewrite elem_of_app, list_elem_of_singleton, IH.
        destruct (decide (k = key)) as [->|Hkey].
        -- rewrite lookup_insert_eq. naive_solver.
        -- rewrite lookup_insert_ne by done. naive_solver.
      * apply NoDup_app. split; [done|]. split; [|apply NoDup_singleton].
        intros x Hx ->%list_elem_of_singleton. done.
    + split; [|done]. intros key. rewrite IH.
      destruct (decide (k = key)) as [->|Hkey].
      * rewrite lookup_insert_eq, Hfresh. naive_solver.
      * by rewrite lookup_insert_ne by done.
Qed.

Lemma length_filter_all {A} (P : A → Prop) `{∀ x, Decision (P x)} (l : list A) :
  length (filter P l) = length l ↔ ∀ x, x ∈ l → P x.
Proof.
  induction l as [|a l IH].
  - split; [|done]. intros _ x Hx. by apply elem_of_nil in Hx.
  - destruct (decide (P a)) as [Ha|Ha].
    + rewrite filter_cons_True by done. simpl. split.
      * intros Hlen x [->|Hx]%elem_of_cons; [done|]. apply IH; [lia|done].
      * intros Hall. f_equal. apply IH. intros x Hx. apply Hall. by right.
    + rewrite filter_cons_False by done. simpl. split.
      * intros Hlen. pose proof (length_filter P l). lia.
      * intros Hall. destruct Ha. apply Hall. by left.
Qed.

Lemma elem_of_findCommonSpecs items key :
  items ≠ [] →
  key ∈ findCommonSpecs items ↔ ∀ item, item ∈ items → hasSpec key item.
Proof.
  intros Hne. destruct items as [|item0 items0] eqn:Hitems; [done|].
  rewrite <- Hitems in *. unfold findCommonSpecs.
  replace (match items with [] => [] | _ :: _ => _ end) with
    (sortStrings
       (map_fold (λ specKey count common,
                    if decide (count = length items)
                    then common ++ [specKey] else common)
                 [] (specCounts_of items))) by (by rewrite Hitems).
  rewrite elem_of_sortStrings.
  rewrite (proj1 (collect_common_spec (length items) (specCounts_of items))).
  rewrite specCounts_of_lookup, length_filter_all.
  split; [tauto|]. intros Hall. split; [done|]. rewrite Hitems. done.
Qed.

Lemma NoDup_findCommonSpecs items : NoDup (findCommonSpecs items).
Proof.
  destruct items as [|item0 items0]; [constructor|].
  unfold findCommonSpecs. apply NoDup_sortStrings.
  apply (collect_common_spec (length (item0 :: items0))
           (specCounts_of (item0 :: items0))).
Qed.

Lemma Sorted_findCommonSpecs items : Sorted String.le (findCommonSpecs items).
Proof.
  destruct items as [|item0 items0]; [constructor|]. apply Sorted_sortStrings.
Qed.

(** Go ranges over [specCounts] in an unspecified order: whatever
    order [keys] the keys are visited in, the sorted slice is the
    same. *)
Lemma findCommonSpecs_any_range_order items keys :
  items ≠ [] →
  keys ≡ₚ (map_to_list (specCounts_of items)).*1 →
  sortStrings
    (filter (λ key, specCounts_of items !! key = Some (length items)) keys)
  = findCommonSpecs items.
Proof.
  intros Hne Hkeys. destruct items as [|item0 items0] eqn:Hitems; [done|].
  rewrite <- Hitems in *. unfold findCommonSpecs.
  replace (match items with [] => [] | _ :: _ => _ end) with
    (sortStrings
       (map_fold (λ specKey count common,
                    if decide (count = length items)
                    then common ++ [specKey] else common)
                 [] (specCounts_of items))) by (by rewrite Hitems).
  destruct (collect_common_spec (length items) (specCounts_of items))
    as [Hmem Hnd].
  apply sortStrings_perm, NoDup_Permutation; [|done|].
  - apply NoDup_filter. rewrite Hkeys. apply NoDup_fst_map_to_list.
  - intros key. rewrite list_elem_of_filter, Hmem, Hkeys. split; [tauto|].
    intros Hkey. split; [done|].
    apply list_elem_of_fmap. exists (key, length items). split; [done|].
    by apply elem_of_map_to_list.
Qed.

End findCommonSpecs_facts.

(** ** Attributes unique to one item *)

Section findUniqueSpecs_facts.

Lemma ownSpecs_lookup specMap item key :
  ownSpecs specMap item !! key =
    match Specifications item !! key with
    | Some _ => Some (<[ID item:=true]> (default ∅ (specMap !! key)))
    | None => specMap !! key
    end.
Proof.
  unfold ownSpecs. revert key.
  apply (map_fold_weak_ind
           (λ r (specs : gmap string JSONValue), ∀ key,
              r !! key =
                match specs !! key with
                | Some _ => Some (<[ID item:=true]> (default ∅ (specMap !! key)))
                | None => specMap !! key
                end)).
  - intros key. by rewrite lookup_empty.
  - intros k v specs r Hfresh IH key. unfold addOwner.
    destruct (decide (k = key)) as [->|Hne].
    + rewrite !lookup_insert_eq. by rewrite (IH key), Hfresh.
    + rewrite !lookup_insert_ne by done. apply IH.
Qed.

Lemma foldl_ownSpecs_dom items : ∀ (specMap : gmap string (gmap Z bool)) key,
  dom (default ∅ (foldl ownSpecs specMap items !! key)) =@{gset Z}
    dom (default ∅ (specMap !! key)) ∪ list_to_set (owners key items).
Proof.
  unfold owners.
  induction items as [|item items IH]; intros specMap key; simpl.
  - by rewrite union_empty_r_L.
  - rewrite IH, ownSpecs_lookup.
    destruct (decide (hasSpec key item)) as [[v Hv]|Hnot].
    + rewrite filter_cons_True by (by exists v). rewrite Hv. simpl.
      rewrite dom_insert_L. set_solver.
    + rewrite filter_cons_False by done.
      destruct (Specifications item !! key) eqn:Hl; [|done].
      destruct Hnot. unfold hasSpec. rewrite Hl. eauto.
Qed.

(** The identifiers recorded for [key] are those of its owners. *)
Lemma specMap_of_dom items key :
  dom (default ∅ (specMap_of items !! key)) =@{gset Z}
    list_to_set (owners key items).
Proof.
  unfold specMap_of. rewrite foldl_ownSpecs_dom, lookup_empty. simpl.
  by rewrite dom_empty_L, union_empty_l_L.
Qed.

Lemma uniqueTo_specMap_of items x key :
  uniqueTo (specMap_of items) x key ↔
  list_to_set (owners key items) =@{gset Z} {[x]}.
Proof.
  pose proof (specMap_of_dom items key) as Hdom. unfold uniqueTo. split.
  - intros (ids & Hids & Hsize & Hx). rewrite Hids in Hdom. simpl in Hdom.
    rewrite <- Hdom. rewrite <- size_dom in Hsize.
    apply size_1_elem_of in Hsize as [y Hy]. apply leibniz_equiv in Hy.
    apply elem_of_dom in Hx. rewrite Hy in Hx.
    apply elem_of_singleton in Hx as ->. done.
  - intros Hset. rewrite Hset in Hdom.
    destruct (specMap_of items !! key) as [ids|]; simpl in Hdom.
    + exists ids. split; [done|]. split.
      * by rewrite <- size_dom, Hdom, size_singleton.
      * apply elem_of_dom. rewrite Hdom. by apply elem_of_singleton.
    + rewrite dom_empty_L in Hdom.
      assert (x ∈ (∅ : gset Z)) as Hx by (rewrite Hdom; set_solver).
      by apply not_elem_of_empty in Hx.
Qed.

(** The inner loop over the (single) identifier of a unique key. *)
Lemma appendUnique_fold spec (ids : gmap Z bool)
    (unique : gmap Z (list string)) x :
  map_fold (λ id _ u, appendUnique id spec u) unique ids !! x =
    match ids !! x with
    | Some _ => Some (default [] (unique !! x) ++ [spec])
    | None => unique !! x
    end.
Proof.
  revert x.
  apply (map_fold_weak_ind
           (λ r (m : gmap Z bool), ∀ x,
              r !! x = match m !! x with
                       | Some _ => Some (default [] (unique !! x) ++ [spec])
                       | None => unique !! x
                       end)).
  - intros x. by rewrite lookup_empty.
  - intros i v m r Hfresh IH x. unfold appendUnique.
    destruct (decide (i = x)) as [->|Hne].
    + rewrite !lookup_insert_eq. by rewrite (IH x), Hfresh.
    + rewrite !lookup_insert_ne by done. apply IH.
Qed.

(** The mapping [unique] before its slices are sorted. *)
Lemma collectUnique_spec (specMap : gmap string (gmap Z bool)) :
  (∀ x key, key ∈ default [] (collectUnique specMap !! x)
            ↔ uniqueTo specMap x key) ∧
  (∀ x, collectUnique specMap !! x ≠ Some []) ∧
  (∀ x l, collectUnique specMap !! x = Some l → NoDup l).
Proof.
  unfold collectUnique.
  apply (map_fold_weak_ind
           (λ (u : gmap Z (list string)) (m : gmap string (gmap Z bool)),
              (∀ x key, key ∈ default [] (u !! x) ↔ uniqueTo m x key) ∧
              (∀ x, u !! x ≠ Some []) ∧
              (∀ x l, u !! x = Some l → NoDup l))).
  - split; [|split].
    + intros x key. rewrite lookup_empty. simpl. rewrite elem_of_nil.
      split; [done|]. intros (ids & Hids & _). by rewrite lookup_empty in Hids.
    + intros x. by rewrite lookup_empty.
    + intros x l. by rewrite lookup_empty.
  - intros spec ids m u Hfresh (IHmem & IHne & IHnd).
    assert (∀ x, spec ∉ default [] (u !! x)) as Hspec.
    { intros x Hin. apply IHmem in Hin as (ids' & Hids' & _). congruence. }
    assert (∀ x key, key ≠ spec →
              uniqueTo (<[spec:=ids]> m) x key ↔ uniqueTo m x key) as Hother.
    { intros x key Hkey. unfold uniqueTo. by rewrite lookup_insert_ne. }
    assert (∀ x, uniqueTo (<[spec:=ids]> m) x spec
                 ↔ size ids = 1%nat ∧ is_Some (ids !! x)) as Hthis.
    { intros x. unfold uniqueTo. rewrite lookup_insert_eq. split.
      - by intros (ids' & [= <-] & ?).
      - intros ?. by exists ids. }
    destruct (decide (size ids = 1%nat)) as [Hone|Hmany].
    + split; [|split].
      * intros x key. rewrite appendUnique_fold.
        destruct (decide (key = spec)) as [->|Hkey].
        -- rewrite Hthis. destruct (ids !! x) as [b|] eqn:Hx; simpl.
           ++ rewrite elem_of_app, list_elem_of_singleton. naive_solver.
           ++ split; [by intros ?%Hspec|]. by intros [_ [? ?]].
        -- rewrite Hother by done. rewrite <- IHmem.
           destruct (ids !! x) as [b|]; simpl; [|done].
           rewrite elem_of_app, list_elem_of_singleton. naive_solver.
      * intros x. rewrite appendUnique_fold.
        destruct (ids !! x); [|apply IHne].
        intros [= Hnil]. by apply app_nil in Hnil as [_ ?].
      * intros x l. rewrite appendUnique_fold.
        destruct (ids !! x); [|apply IHnd].
        intros [= <-]. apply NoDup_app. split; [|split].
        -- destruct (u !! x) as [l0|] eqn:Hl0; simpl; [|constructor].
           by apply (IHnd x).
        -- intros k Hk ->%list_elem_of_singleton. by apply (Hspec x).
        -- apply NoDup_singleton.
    + split; [|split]; [|done..].
      intros x key. destruct (decide (key = spec)) as [->|Hkey].
      * rewrite Hthis. split; [by intros ?%Hspec|]. by intros [? _].
      * rewrite Hother by done. apply IHmem.
Qed.

Lemma findUniqueSpecs_lookup_fmap items x :
  findUniqueSpecs items !! x =
    sortStrings <$> collectUnique (specMap_of items) !! x.
Proof. unfold findUniqueSpecs. apply lookup_fmap. Qed.

(** [key] is listed under identifier [x] exactly when the owners of
    [key] all carry the identifier [x]. *)
Lemma findUniqueSpecs_by_id items x key :
  (∃ l, findUniqueSpecs items !! x = Some l ∧ key ∈ l) ↔
  list_to_set (owners key items) =@{gset Z} {[x]}.
Proof.
  rewrite <- uniqueTo_specMap_of.
  rewrite <- (proj1 (collectUnique_spec (specMap_of items))).
  rewrite findUniqueSpecs_lookup_fmap.
  destruct (collectUnique (specMap_of items) !! x) as [l0|]; simpl.
  - split.
    + intros (l & [= <-] & Hin). by rewrite elem_of_sortStrings in Hin.
    + intros Hin. eexists. split; [done|]. by rewrite elem_of_sortStrings.
  - rewrite elem_of_nil. split; [|done]. by intros (l & ? & _).
Qed.

Lemma findUniqueSpecs_entry items x l :
  findUniqueSpecs items !! x = Some l →
  l ≠ [] ∧ Sorted String.le l ∧ NoDup l.
Proof.
  rewrite findUniqueSpecs_lookup_fmap.
  destruct (collectUnique_spec (specMap_of items)) as (_ & Hne & Hnd).
  destruct (collectUnique (specMap_of items) !! x) as [l0|] eqn:Hl0;
    simpl; [|done].
  intros [= <-]. split; [|split].
  - intros Hnil%sortStrings_nil_inv. subst l0. by apply (Hne x).
  - apply Sorted_sortStrings.
  - apply NoDup_sortStrings. by apply (Hnd x).
Qed.

(** The mapping is determined by what it lists: any mapping with the
    same entries by identifier whose lists are non-empty, sorted and
    without repetition is this one, so the order in which Go ranged
    over [specMap], [ids] and [unique] does not show in it. *)
Lemma findUniqueSpecs_canonical items (u : gmap Z (list string)) :
  (∀ x key, (∃ l, u !! x = Some l ∧ key ∈ l) ↔
            list_to_set (owners key items) =@{gset Z} {[x]}) →
  (∀ x l, u !! x = Some l → l ≠ [] ∧ Sorted String.le l ∧ NoDup l) →
  u = findUniqueSpecs items.
Proof.
  intros Hmem Hentry. apply map_eq. intros x.
  assert (∀ key, (∃ l, u !! x = Some l ∧ key ∈ l) ↔
                 (∃ l, findUniqueSpecs items !! x = Some l ∧ key ∈ l)) as Hsame.
  { intros key. by rewrite Hmem, findUniqueSpecs_by_id. }
  destruct (u !! x) as [l1|] eqn:H1,
           (findUniqueSpecs items !! x) as [l2|] eqn:H2.
  - f_equal. destruct (Hentry x l1 H1) as (_ & Hs1 & Hn1).
    destruct (findUniqueSpecs_entry items x l2 H2) as (_ & Hs2 & Hn2).
    apply (Sorted_unique String.le); [done..|].
    apply NoDup_Permutation; [done..|]. intros key. split.
    + intros Hin. destruct (proj1 (Hsame key)) as (l & [= <-] & ?); eauto.
    + intros Hin. destruct (proj2 (Hsame key)) as (l & [= <-] & ?); eauto.
  - destruct (Hentry x l1 H1) as (Hne & _). destruct l1 as [|key l1]; [done|].
    destruct (proj1 (Hsame key)) as (l & ? & _); [|done].
    eexists. split; [done|]. by left.
  - destruct (findUniqueSpecs_entry items x l2 H2) as (Hne & _).
    destruct l2 as [|key l2]; [done|].
    destruct (proj2 (Hsame key)) as (l & ? & _); [|done].
    eexists. split; [done|]. by left.
  - done.
Qed.

End findUniqueSpecs_facts.

(** ** The comparison payload of a result *)

Section comparison_payload.

Lemma findUniqueSpecs_nil : findUniqueSpecs [] = ∅.
Proof.
  unfold findUniqueSpecs, collectUnique, specMap_of. simpl.
  by rewrite map_fold_empty, fmap_empty.
Qed.

Lemma generateComparison_specs items :
  CommonSpecs (generateComparison items) = findCommonSpecs items ∧
  UniqueSpecs (generateComparison items) = findUniqueSpecs items.
Proof.
  destruct items as [|item items]; simpl; [|done].
  by rewrite findUniqueSpecs_nil.
Qed.

(** Identifiers identify the items of a list without repeated
    identifiers. *)
Lemma NoDup_ID_inj items X Y :
  NoDup (ID <$> items) → X ∈ items → Y ∈ items → ID X = ID Y → X = Y.
Proof.
  induction items as [|a items IH]; simpl.
  - intros _ HX. by apply elem_of_nil in HX.
  - intros [Ha Hnd]%NoDup_cons [->|HX]%elem_of_cons [->|HY]%elem_of_cons Heq.
    + done.
    + destruct Ha. rewrite Heq. by apply list_elem_of_fmap_2.
    + destruct Ha. rewrite <- Heq. by apply list_elem_of_fmap_2.
    + by apply IH.
Qed.

(** With pairwise distinct identifiers, "all owners of [key] carry
    the identifier [x]" means that exactly one item has [key]. *)
Lemma owners_singleton items x key :
  NoDup (ID <$> items) →
  list_to_set (owners key items) =@{gset Z} {[x]} ↔
  ∃ X, filter (hasSpec key) items = [X] ∧ ID X = x.
Proof.
  intros Hnd. unfold owners. split.
  - intros Hset.
    assert (NoDup (ID <$> filter (hasSpec key) items)) as Hnd'.
    { eapply sublist_NoDup; [exact Hnd|]. apply fmap_sublist, sublist_filter. }
    destruct (filter (hasSpec key) items) as [|Y [|Y' rest]]; simpl in *.
    + assert (x ∈ (∅ : gset Z)) as Hx by (rewrite Hset; set_solver).
      by apply not_elem_of_empty in Hx.
    + exists Y. split; [done|].
      assert (ID Y ∈ ({[x]} : gset Z)) as HY by (rewrite <- Hset; set_solver).
      by apply elem_of_singleton in HY.
    + assert (ID Y ∈ ({[x]} : gset Z)) as HY by (rewrite <- Hset; set_solver).
      assert (ID Y' ∈ ({[x]} : gset Z)) as HY' by (rewrite <- Hset; set_solver).
      apply elem_of_singleton in HY, HY'.
      apply NoDup_cons in Hnd' as [Hnin _]. destruct Hnin.
      rewrite HY, <- HY'. by left.
  - intros (X & -> & <-). simpl. set_solver.
Qed.

End comparison_payload.

(** ** Claims about the comparison payload *)

Section payload_claims.
Import errors.

(** C4: for a non-empty list of items, an attribute name is in the
    result of findCommonSpecs exactly when it is a key of every
    item's specification mapping; the result is in increasing
    byte-wise (lexicographic) order without repetition; and it
    depends on the key sets only, not on the values stored. *)
Theorem findCommonSpecs_characterisation items :
  items ≠ [] →
  (∀ key, key ∈ findCommonSpecs items
          ↔ ∀ item, item ∈ items → hasSpec key item) ∧
  Sorted String.le (findCommonSpecs items) ∧
  NoDup (findCommonSpecs items) ∧
  (∀ items',
     (λ it, dom (Specifications it) : gset string) <$> items' =
     (λ it, dom (Specifications it) : gset string) <$> items →
     findCommonSpecs items' = findCommonSpecs items).
Proof.
  intros Hne. split; [|split; [|split]].
  - intros key. by apply elem_of_findCommonSpecs.
  - apply Sorted_findCommonSpecs.
  - apply NoDup_findCommonSpecs.
  - intros items' Hdom.
    assert (items' ≠ []) as Hne'.
    { intros ->. destruct items; [done|discriminate Hdom]. }
    apply (Sorted_unique String.le); [apply Sorted_findCommonSpecs..|].
    apply NoDup_Permutation; [apply NoDup_findCommonSpecs..|].
    intros key. rewrite !elem_of_findCommonSpecs by done.
    assert (∀ l : list Item,
              (∀ item, item ∈ l → hasSpec key item) ↔
              Forall (λ d : gset string, key ∈ d)
                     ((λ it, dom (Specifications it)) <$> l)) as Hforall.
    { intros l. rewrite Forall_fmap, Forall_forall.
      apply forall_proper; intros item. unfold hasSpec. simpl.
      by rewrite elem_of_dom. }
    by rewrite !Hforall, Hdom.
Qed.

Lemma findCommonSpecs_characterisation_witness :
  findCommonSpecs [laptop; phone; tablet] = ["color"; "material"] ∧
  Sorted String.le (findCommonSpecs [laptop; phone; tablet]).
Proof.
  assert ([laptop; phone; tablet] ≠ []) as Hne by discriminate.
  split; [reflexivity|].
  exact (proj1 (proj2 (findCommonSpecs_characterisation _ Hne))).
Defined.

(** The characterisation of unique_specs needs the identifiers of
    the items to be pairwise distinct, as those of stored items are:
    findUniqueSpecs counts identifiers, not items, so on a list in
    which two items carry the same identifier it lists "color", a key
    of both, under that identifier. *)
Lemma findUniqueSpecs_twins :
  [twin1; twin2] ≠ [] ∧ twin1 ∈ [twin1; twin2] ∧
  findUniqueSpecs [twin1; twin2] !! ID twin1 = Some ["color"] ∧
  filter (hasSpec "color") [twin1; twin2] = [twin1; twin2] ∧
  ¬ ((∃ l, findUniqueSpecs [twin1; twin2] !! ID twin1 = Some l ∧ "color" ∈ l)
     ↔ filter (hasSpec "color") [twin1; twin2] = [twin1]).
Proof.
  split; [discriminate|]. split; [by left|].
  assert (findUniqueSpecs [twin1; twin2] !! ID twin1 = Some ["color"]) as Hu
    by reflexivity.
  assert (filter (hasSpec "color") [twin1; twin2] = [twin1; twin2]) as Hf
    by reflexivity.
  split; [done|]. split; [done|].
  intros [Hiff _]. rewrite Hf in Hiff.
  assert ([twin1; twin2] = [twin1]) as Heq; [|discriminate Heq].
  apply Hiff. exists ["color"]. split; [done|]. by left.
Qed.

(** C5: for a list of resolved items, whose identifiers are
    pairwise distinct, an attribute name is in the list that
    findUniqueSpecs stores under the identifier of item [X] exactly
    when [X] is the one item that has it as a key; every stored list
    is non-empty, in increasing byte-wise order without repetition,
    and stored under the identifier of some item; so an identifier
    is absent from the mapping exactly when no attribute is unique
    to its item. *)
Theorem findUniqueSpecs_characterisation items :
  NoDup (ID <$> items) →
  (∀ X key, X ∈ items →
     (∃ l, findUniqueSpecs items !! ID X = Some l ∧ key ∈ l)
     ↔ filter (hasSpec key) items = [X]) ∧
  (∀ x l, findUniqueSpecs items !! x = Some l →
     l ≠ [] ∧ Sorted String.le l ∧ NoDup l ∧ ∃ X, X ∈ items ∧ ID X = x) ∧
  (∀ X, X ∈ items →
     findUniqueSpecs items !! ID X = None
     ↔ ∀ key, filter (hasSpec key) items ≠ [X]).
Proof.
  intros Hnd.
  assert (∀ X key, X ∈ items →
            (∃ l, findUniqueSpecs items !! ID X = Some l ∧ key ∈ l)
            ↔ filter (hasSpec key) items = [X]) as Hmem.
  { intros X key HX. rewrite findUniqueSpecs_by_id, owners_singleton by done.
    split.
    - intros (Y & Hf & Heq). rewrite Hf. f_equal.
      apply (NoDup_ID_inj items); [done| |done..].
      assert (Y ∈ filter (hasSpec key) items) as HY by (rewrite Hf; by left).
      by apply list_elem_of_filter in HY as [_ ?].
    - intros Hf. by exists X. }
  split; [exact Hmem|]. split.
  - intros x l Hl. destruct (findUniqueSpecs_entry items x l Hl)
      as (Hne & Hsorted & Hndl).
    do 3 (split; [done|]).
    destruct l as [|key l]; [done|].
    assert (∃ l', findUniqueSpecs items !! x = Some l' ∧ key ∈ l') as Hkey.
    { eexists. split; [done|]. by left. }
    rewrite findUniqueSpecs_by_id, owners_singleton in Hkey by done.
    destruct Hkey as (X & Hf & Heq). exists X. split; [|done].
    assert (X ∈ filter (hasSpec key) items) as HX by (rewrite Hf; by left).
    by apply list_elem_of_filter in HX as [_ ?].
  - intros X HX. split.
    + intros Hnone key Hf. apply (Hmem X key HX) in Hf as (l & Hl & _).
      congruence.
    + intros Hall.
      destruct (findUniqueSpecs items !! ID X) as [l|] eqn:Hl; [|done].
      destruct (findUniqueSpecs_entry items _ l Hl) as (Hne & _).
      destruct l as [|key l]; [done|]. destruct (Hall key).
      apply (Hmem X key HX). exists (key :: l). split; [done|]. by left.
Qed.

Lemma findUniqueSpecs_characterisation_witness :
  map_to_list (findUniqueSpecs [laptop; phone; tablet]) = [(3, ["brand"])] ∧
  ((∃ l, findUniqueSpecs [laptop; phone; tablet] !! ID tablet = Some l ∧
         "brand" ∈ l)
   ↔ filter (hasSpec "brand") [laptop; phone; tablet] = [tablet]).
Proof.
  assert (NoDup (ID <$> [laptop; phone; tablet])) as Hnd
    by (apply (bool_decide_unpack _); vm_compute; exact I).
  split; [reflexivity|].
  apply (proj1 (findUniqueSpecs_characterisation _ Hnd)).
  right; right; left.
Defined.

(** C2 as stated fails: [[1; 1]] passes the length check, the store
    resolves the single item 1, and every attribute of that item is
    both common and unique to it. *)
Lemma CompareItems_single_item_overlap :
  ∃ resp,
    result (CompareItems (sqliteRepo [laptop; phone]) Background [1; 1])
      = inr resp ∧
    Items resp = [laptop] ∧
    "color" ∈ CommonSpecs (Comparison resp) ∧
    ∃ l, UniqueSpecs (Comparison resp) !! 1 = Some l ∧ "color" ∈ l.
Proof.
  eexists. split; [reflexivity|]. split; [reflexivity|]. split.
  - vm_compute. by left.
  - exists ["color"; "material"; "size"]. split; [reflexivity|]. by left.
Qed.

(** C2 (amended): in a successful CompareItems result whose items
    carry at least two different identifiers, no attribute name is
    both in common_specs and in a list of unique_specs. *)
Theorem CompareItems_common_unique_disjoint repo ctx ids resp :
  result (CompareItems repo ctx ids) = inr resp →
  (∃ a b, a ∈ Items resp ∧ b ∈ Items resp ∧ ID a ≠ ID b) →
  ∀ key x l,
    key ∈ CommonSpecs (Comparison resp) →
    UniqueSpecs (Comparison resp) !! x = Some l →
    key ∉ l.
Proof.
  intros Hres (a & b & Ha & Hb & Hab) key x l Hcommon Hunique Hin.
  apply CompareItems_success_inv in Hres as (_ & _ & _ & Hcmp).
  destruct (generateComparison_specs (Items resp)) as [Hc Hu].
  rewrite Hcmp, Hc in Hcommon. rewrite Hcmp, Hu in Hunique.
  assert (Items resp ≠ []) as Hne.
  { intros Hnil. rewrite Hnil in Ha. by apply elem_of_nil in Ha. }
  rewrite elem_of_findCommonSpecs in Hcommon by done.
  assert (list_to_set (owners key (Items resp)) =@{gset Z} {[x]}) as Hset.
  { apply findUniqueSpecs_by_id. eauto. }
  assert (∀ c, c ∈ Items resp → ID c = x) as Hall.
  { intros c Hc'. assert (ID c ∈ ({[x]} : gset Z)) as Hx.
    { rewrite <- Hset. apply elem_of_list_to_set. unfold owners.
      apply list_elem_of_fmap_2, list_elem_of_filter. split; [|done].
      by apply Hcommon. }
    by apply elem_of_singleton in Hx. }
  apply Hab. by rewrite (Hall a), (Hall b).
Qed.

Lemma CompareItems_common_unique_disjoint_witness :
  result (CompareItems (sqliteRepo [laptop; phone; tablet])
            Background [1; 2; 3]) =
    inr (mkCompareResponse [laptop; phone; tablet]
           (generateComparison [laptop; phone; tablet])) ∧
  CommonSpecs (generateComparison [laptop; phone; tablet])
    = ["color"; "material"] ∧
  map_to_list (UniqueSpecs (generateComparison [laptop; phone; tablet]))
    = [(3, ["brand"])] ∧
  ∀ key x l,
    key ∈ CommonSpecs (generateComparison [laptop; phone; tablet]) →
    UniqueSpecs (generateComparison [laptop; phone; tablet]) !! x = Some l →
    key ∉ l.
Proof.
  assert (result (CompareItems (sqliteRepo [laptop; phone; tablet])
                    Background [1; 2; 3]) =
          inr (mkCompareResponse [laptop; phone; tablet]
                 (generateComparison [laptop; phone; tablet]))) as Hres
    by reflexivity.
  assert (∃ a b, a ∈ [laptop; phone; tablet] ∧ b ∈ [laptop; phone; tablet] ∧
                 ID a ≠ ID b) as Htwo.
  { exists laptop, phone. split; [by left|].
    split; [by right; left|]. discriminate. }
  split; [exact Hres|]. split; [reflexivity|]. split; [reflexivity|].
  exact (CompareItems_common_unique_disjoint _ _ _ _ Hres Htwo).
Defined.

End payload_claims.

(** ** The scenarios of the repository's service tests *)

Section service_tests.
Import errors.

(** TestService_CompareItems_OK: three items, "color" and "material"
    common, "brand" unique to item 3, "size" neither. *)
Example test_CompareItems_OK :
  let items :=
    [mkItem 1 "Item 1" "" "" 100 4.5
       (list_to_map [("color", JString "red"); ("size", JString "large");
                     ("material", JString "cotton")]);
     mkItem 2 "Item 2" "" "" 200 4.0
       (list_to_map [("color", JString "blue"); ("size", JString "medium");
                     ("material", JString "cotton")]);
     mkItem 3 "Item 3" "" "" 150 4.8
       (list_to_map [("color", JString "green"); ("material", JString "cotton");
                     ("brand", JString "Nike")])] in
  let repo := fixedRepo (inr items) (inl ErrNotFound) (inr items) in
  ∃ resp,
    CompareItems repo Background [1; 2; 3] =
      ([CallGetByIDs Background [1; 2; 3]], inr resp) ∧
    Items resp = items ∧
    PriceRange_of (Comparison resp) = mkPriceRange 100 200 ∧
    RatingRange_of (Comparison resp) = mkRatingRange 4.0 4.8 ∧
    CommonSpecs (Comparison resp) = ["color"; "material"] ∧
    map_to_list (UniqueSpecs (Comparison resp)) = [(3, ["brand"])].
Proof. eexists. repeat split; reflexivity. Qed.

(** TestService_CompareItems_ValidationError_Empty. *)
Example test_CompareItems_Empty :
  CompareItems (fixedRepo (inr []) (inl ErrNotFound) (inr [])) Background [] =
    ([], inl (NewDomainError ErrorCodeValidation
                "se requieren al menos 2 items para comparar" None)).
Proof. reflexivity. Qed.

(** TestService_CompareItems_RepoError. *)
Example test_CompareItems_RepoError :
  CompareItems (fixedRepo (inr []) (inl ErrNotFound) (inl SqlErrConnDone))
               Background [1; 2] =
    ([CallGetByIDs Background [1; 2]],
     inl (NewDomainError ErrorCodeInternalServer
            "error al obtener los items para comparación"
            (Some SqlErrConnDone))).
Proof. reflexivity. Qed.

(** TestService_CompareItems_DuplicateIDs: the store is asked for
    [[1; 2]]. *)
Example test_CompareItems_DuplicateIDs :
  calls (CompareItems (sqliteRepo [laptop; phone]) Background [1; 2; 1]) =
    [CallGetByIDs Background [1; 2]] ∧
  ∃ resp,
    result (CompareItems (sqliteRepo [laptop; phone]) Background [1; 2; 1])
      = inr resp ∧ length (Items resp) = 2%nat.
Proof. split; [reflexivity|]. eexists. split; reflexivity. Qed.

(** TestService_CompareItems_EmptySpecs. *)
Example test_CompareItems_EmptySpecs :
  let items := [demoItem 1 100 4.5 []; demoItem 2 200 4.0 []] in
  ∃ resp,
    result (CompareItems (sqliteRepo items) Background [1; 2]) = inr resp ∧
    CommonSpecs (Comparison resp) = [] ∧
    UniqueSpecs (Comparison resp) = ∅.
Proof. eexists. repeat split; reflexivity. Qed.

(** TestService_GetAllItems_RepoError: the store's error is kept as
    the cause. *)
Example test_GetAllItems_RepoError :
  GetAllItems (fixedRepo (inl SqlErrConnDone) (inl ErrNotFound) (inr []))
              Background =
    ([CallGetAll Background],
     inl (NewDomainError ErrorCodeInternalServer "error al obtener los items"
            (Some SqlErrConnDone))).
Proof. reflexivity. Qed.

(** A store's answer is accepted on its length alone, so two items
    that share an identifier reach the comparison: "color", a key of
    both, is then reported as common and as unique to identifier 5. *)
Example CompareItems_accepts_repeated_identifier :
  ∃ resp,
    result (CompareItems (fixedRepo (inr []) (inl ErrNotFound)
                                    (inr [twin1; twin2]))
                         Background [5; 6]) = inr resp ∧
    Items resp = [twin1; twin2] ∧
    CommonSpecs (Comparison resp) = ["color"] ∧
    UniqueSpecs (Comparison resp) = {[ 5 := ["color"] ]}.
Proof. eexists. repeat split; reflexivity. Qed.

End service_tests.

(** ** The order of [sort.Float64s] *)

Section float_order.

Local Ltac cmp_cases :=
  change (Pos.compare_cont Eq) with Pos.compare in *;
  repeat match goal with
  | |- context [(?a ?= ?b)%Z] => destruct (Z.compare_spec a b); simpl
  | |- context [(?a ?= ?b)%positive] => destruct (Pos.compare_spec a b); simpl
  end; try done; try lia.

Lemma SFltb_asym x y : SFltb x y = true → SFltb y x = false.
Proof.
  unfold SFltb, SFcompare.
  destruct x as [| [|] | | [|] m1 e1], y as [| [|] | | [|] m2 e2]; try done;
    cmp_cases.
Qed.

Lemma SFltb_negtrans x y z :
  x ≠ S754_nan → y ≠ S754_nan → z ≠ S754_nan →
  SFltb x y = false → SFltb y z = false → SFltb x z = false.
Proof.
  intros Hx Hy Hz. unfold SFltb, SFcompare.
  destruct x as [| [|] | | [|] m1 e1], y as [| [|] | | [|] m2 e2],
           z as [| [|] | | [|] m3 e3]; try done; cmp_cases.
Qed.

Lemma SFleb_negb_ltb x y :
  x ≠ S754_nan → y ≠ S754_nan → SFleb x y = negb (SFltb y x).
Proof.
  intros Hx Hy. unfold SFltb, SFleb, SFcompare.
  destruct x as [| [|] | | [|] m1 e1], y as [| [|] | | [|] m2 e2]; try done;
    cmp_cases.
Qed.

Lemma SFltb_nan_l y : SFltb S754_nan y = false.
Proof. done. Qed.

Lemma SFltb_nan_r x : SFltb x S754_nan = false.
Proof. by destruct x. Qed.

Lemma SFeqb_refl_iff x : SFeqb x x = true ↔ x ≠ S754_nan.
Proof.
  unfold SFeqb, SFcompare.
  destruct x as [| [|] | | [|] m1 e1]; try done.
  all: rewrite Z.compare_refl; change (Pos.compare_cont Eq) with Pos.compare.
  all: by rewrite Pos.compare_refl.
Qed.

Lemma isNaN_spec x : isNaN x = true ↔ Prim2SF x = S754_nan.
Proof.
  unfold isNaN. rewrite FloatAxioms.eqb_spec, negb_true_iff.
  pose proof (SFeqb_refl_iff (Prim2SF x)) as Hrefl.
  destruct (Prim2SF x) as [| |  |]; try done.
  all: split; [|done]; intros Hf; destruct Hrefl as [_ Hrefl];
    rewrite Hrefl in Hf; done.
Qed.

Lemma notNaN_spec x : notNaN x ↔ Prim2SF x ≠ S754_nan.
Proof.
  unfold notNaN. pose proof (isNaN_spec x) as H.
  destruct (isNaN x); split; try done.
  - intros Hn. destruct Hn. by apply H.
  - intros _ Hn. apply H in Hn. done.
Qed.

Lemma isNaN_false_spec x : isNaN x = false → Prim2SF x ≠ S754_nan.
Proof. apply notNaN_spec. Qed.

Lemma ltb_isNaN_l x y : isNaN x = true → PrimFloat.ltb x y = false.
Proof. intros Hx%isNaN_spec. by rewrite FloatAxioms.ltb_spec, Hx. Qed.

Lemma ltb_isNaN_r x y : isNaN y = true → PrimFloat.ltb x y = false.
Proof. intros Hy%isNaN_spec. rewrite FloatAxioms.ltb_spec, Hy. apply SFltb_nan_r. Qed.

(** [lessFloat64] is a strict order in which the NaNs form the lowest
    class: it is asymmetric and its complement is transitive. *)
Lemma lessFloat64_asym x y : lessFloat64 x y = true → lessFloat64 y x = false.
Proof.
  unfold lessFloat64. intros [Hlt|[Hx Hy]%andb_true_iff]%orb_true_iff.
  - destruct (isNaN x) eqn:Hx; [by rewrite ltb_isNaN_l in Hlt|].
    destruct (isNaN y) eqn:Hy; [by rewrite ltb_isNaN_r in Hlt|].
    rewrite FloatAxioms.ltb_spec in *. by rewrite (SFltb_asym _ _ Hlt).
  - by rewrite ltb_isNaN_r, Hx, andb_false_r.
Qed.

Lemma lessFloat64_negtrans x y z :
  lessFloat64 x y = false → lessFloat64 y z = false → lessFloat64 x z = false.
Proof.
  unfold lessFloat64. intros [Hxy Hxy']%orb_false_iff [Hyz Hyz']%orb_false_iff.
  destruct (isNaN z) eqn:Hz.
  { by rewrite ltb_isNaN_r, andb_false_r. }
  destruct (isNaN y) eqn:Hy; [done|].
  destruct (isNaN x) eqn:Hx; [done|].
  rewrite orb_false_r. rewrite FloatAxioms.ltb_spec in *.
  apply (SFltb_negtrans _ (Prim2SF y)); try done; by apply isNaN_false_spec.
Qed.

Lemma lessFloat64_irrefl x : lessFloat64 x x = false.
Proof.
  destruct (lessFloat64 x x) eqn:H; [|done]. by rewrite (lessFloat64_asym x x H) in H.
Qed.

Lemma leb_negb_ltb x y :
  notNaN x → notNaN y → PrimFloat.leb x y = negb (PrimFloat.ltb y x).
Proof.
  intros Hx%notNaN_spec Hy%notNaN_spec. rewrite FloatAxioms.leb_spec, FloatAxioms.ltb_spec.
  by apply SFleb_negb_ltb.
Qed.

Lemma lessFloat64_false_leb x y :
  notNaN x → notNaN y → lessFloat64 x y = false → PrimFloat.leb y x = true.
Proof.
  intros Hx Hy [Hlt _]%orb_false_iff. by rewrite leb_negb_ltb, Hlt.
Qed.

End float_order.

(** ** Price and rating ranges *)

Section ranges.

Lemma insertFloat64_Permutation x acc : insertFloat64 x acc ≡ₚ x :: acc.
Proof.
  induction acc as [|e r IH]; simpl; [done|].
  destruct (lessFloat64 x e); [|done]. rewrite IH. apply Permutation_swap.
Qed.

Lemma foldl_insertFloat64_Permutation l : ∀ acc,
  foldl (λ acc x, insertFloat64 x acc) acc l ≡ₚ l ++ acc.
Proof.
  induction l as [|x l IH]; intros acc; simpl; [done|].
  rewrite IH, insertFloat64_Permutation. by rewrite Permutation_middle.
Qed.

(** [sort.Float64s] rearranges the slice. *)
Lemma sortFloat64s_Permutation l : sortFloat64s l ≡ₚ l.
Proof.
  unfold sortFloat64s.
  rewrite reverse_Permutation, foldl_insertFloat64_Permutation.
  by rewrite app_nil_r.
Qed.

Lemma insertFloat64_descending x acc :
  descending acc → descending (insertFloat64 x acc).
Proof.
  unfold descending. induction acc as [|e r IH]; simpl; intros Hacc.
  - repeat constructor.
  - apply StronglySorted_inv in Hacc as [Hr He].
    destruct (lessFloat64 x e) eqn:Hxe.
    + constructor; [by apply IH|].
      rewrite insertFloat64_Permutation. constructor; [|done].
      by apply lessFloat64_asym.
    + constructor; [by constructor|]. constructor; [done|].
      eapply Forall_impl; [exact He|]. intros b Hb. simpl in Hb.
      by apply (lessFloat64_negtrans x e b).
Qed.

Lemma foldl_insertFloat64_descending l : ∀ acc,
  descending acc → descending (foldl (λ acc x, insertFloat64 x acc) acc l).
Proof.
  induction l as [|x l IH]; intros acc Hacc; simpl; [done|].
  by apply IH, insertFloat64_descending.
Qed.

Lemma descending_head acc hi p :
  descending acc → head acc = Some hi → p ∈ acc → lessFloat64 hi p = false.
Proof.
  destruct acc as [|e r]; [done|]. intros Hacc [= ->] Hp.
  apply StronglySorted_inv in Hacc as [_ He].
  apply elem_of_cons in Hp as [->|Hp]; [apply lessFloat64_irrefl|].
  by apply (proj1 (Forall_forall _ _) He).
Qed.

Lemma descending_last acc lo p :
  descending acc → last acc = Some lo → p ∈ acc → lessFloat64 p lo = false.
Proof.
  induction acc as [|e r IH]; [done|]. intros Hacc Hlast Hp.
  apply StronglySorted_inv in Hacc as [Hr He].
  destruct r as [|e' r'].
  - injection Hlast as <-. apply list_elem_of_singleton in Hp as ->.
    apply lessFloat64_irrefl.
  - change (last (e' :: r') = Some lo) in Hlast.
    apply elem_of_cons in Hp as [->|Hp]; [|by apply IH].
    apply (proj1 (Forall_forall _ _) He).
    by apply last_Some_elem_of.
Qed.

(** The first and the last element of the sorted slice span it. *)
Lemma sortFloat64s_spans l :
  l ≠ [] →
  spans l (default 0%float (head (sortFloat64s l)))
          (default 0%float (last (sortFloat64s l))).
Proof.
  intros Hne. unfold sortFloat64s. rewrite head_reverse, last_reverse.
  set (acc := foldl (λ acc x, insertFloat64 x acc) [] l).
  assert (acc ≡ₚ l) as Hperm.
  { unfold acc. rewrite foldl_insertFloat64_Permutation. by rewrite app_nil_r. }
  assert (descending acc) as Hdesc.
  { apply foldl_insertFloat64_descending. constructor. }
  destruct acc as [|e r] eqn:Hacc.
  { apply Permutation_nil_l in Hperm. by subst. }
  rewrite <- Hacc in *.
  destruct (last acc) as [lo|] eqn:Hlast;
    [|by rewrite Hacc in Hlast; apply last_None in Hlast].
  assert (head acc = Some e) as Hhead by (by rewrite Hacc).
  rewrite Hhead. simpl. split; [|split].
  - rewrite <- Hperm. by apply last_Some_elem_of.
  - rewrite <- Hperm, Hacc. by left.
  - intros p Hp. rewrite <- Hperm in Hp. split.
    + by apply (descending_last acc).
    + by apply (descending_head acc).
Qed.

End ranges.

(** ** Further properties of the comparison service *)

Section service_extras.
Import errors.

(** X1: for every sequence of at most 10 identifiers with at least 2
    distinct values, CompareItems makes the same store call and
    returns the same result on the sequence and on its
    deduplication. *)
Theorem CompareItems_ignores_duplicates repo ctx ids :
  (length ids ≤ 10)%nat → (2 ≤ distinctCount ids)%nat →
  CompareItems repo ctx ids = CompareItems repo ctx (uniqueIDs ids).
Proof.
  intros Hhi Hlo. apply CompareItems_uniqueIDs; [done|].
  by rewrite length_uniqueIDs.
Qed.

Lemma CompareItems_ignores_duplicates_witness :
  CompareItems (sqliteRepo [laptop; phone; tablet]) Background [3; 1; 3; 1] =
  CompareItems (sqliteRepo [laptop; phone; tablet]) Background [3; 1].
Proof.
  assert (Nat.le (length [3; 1; 3; 1]) 10) as Hhi by (simpl; lia).
  assert (Nat.le 2 (distinctCount [3; 1; 3; 1])) as Hlo by (vm_compute; lia).
  exact (CompareItems_ignores_duplicates
           (sqliteRepo [laptop; phone; tablet]) Background _ Hhi Hlo).
Defined.

(** X2: a request that passes the length check makes exactly one
    store call, a bulk lookup under the caller's context whose
    identifiers are those of the request, pairwise distinct, in
    first-occurrence order (the query is the request with every
    later occurrence of an identifier removed), and between 1 and 10
    in number. *)
Theorem CompareItems_bulk_query_shape repo ctx ids :
  (2 ≤ length ids ≤ 10)%nat →
  ∃ query,
    calls (CompareItems repo ctx ids) = [CallGetByIDs ctx query] ∧
    query = firstOccurrences ids ∧
    NoDup query ∧ sublist query ids ∧
    (∀ id, id ∈ query ↔ id ∈ ids) ∧
    (1 ≤ length query ≤ 10)%nat ∧ length query = distinctCount ids.
Proof.
  intros Hlen. exists (uniqueIDs ids).
  split; [by apply CompareItems_calls|].
  split; [apply uniqueIDs_firstOccurrences|].
  split; [apply NoDup_uniqueIDs|]. split; [apply sublist_uniqueIDs|].
  split; [apply elem_of_uniqueIDs|]. split; [|apply length_uniqueIDs].
  pose proof (length_uniqueIDs_le ids). split; [|lia].
  destruct ids as [|id ids]; [simpl in Hlen; lia|].
  assert (id ∈ uniqueIDs (id :: ids)) as Hin by (apply elem_of_uniqueIDs; by left).
  destruct (uniqueIDs (id :: ids)); [by apply elem_of_nil in Hin|simpl; lia].
Qed.

Lemma CompareItems_bulk_query_shape_witness :
  ∃ query,
    calls (CompareItems (sqliteRepo [laptop]) Background [2; 1; 2; 1])
      = [CallGetByIDs Background query] ∧
    query = firstOccurrences [2; 1; 2; 1] ∧
    NoDup query ∧ sublist query [2; 1; 2; 1] ∧
    (∀ id, id ∈ query ↔ id ∈ [2; 1; 2; 1]) ∧
    (1 ≤ length query ≤ 10)%nat ∧
    length query = distinctCount [2; 1; 2; 1].
Proof.
  assert (Nat.le 2 (length [2; 1; 2; 1]) ∧ Nat.le (length [2; 1; 2; 1]) 10)
    as Hlen by (simpl; lia).
  exact (CompareItems_bulk_query_shape (sqliteRepo [laptop]) Background _ Hlen).
Defined.

(** X3: when the store answers a validated request with more items
    than distinct identifiers were requested and every requested
    identifier is among them, CompareItems still fails with NOT_FOUND,
    and its message names no identifier. *)
Theorem CompareItems_surplus_items_names_nothing repo ctx ids items :
  (2 ≤ length ids ≤ 10)%nat →
  GetByIDs repo ctx (uniqueIDs ids) = inr items →
  (distinctCount ids < length items)%nat →
  (∀ id, id ∈ ids → id ∈ ID <$> items) →
  result (CompareItems repo ctx ids) =
    inl (NewDomainError ErrorCodeNotFound
           "Items con IDs [] no encontrados with id <nil> not found" None).
Proof.
  intros Hlen Hstore Hmore Hall.
  rewrite (CompareItems_count_mismatch repo ctx ids items);
    [|done..|rewrite length_uniqueIDs; lia].
  assert (missingItemIDs (uniqueIDs ids) items = []) as ->; [|done].
  apply elem_of_nil_inv. intros id [Hid Hnin]%elem_of_missingItemIDs.
  apply Hnin, Hall. by apply elem_of_uniqueIDs.
Qed.

Lemma CompareItems_surplus_items_names_nothing_witness :
  result (CompareItems
            (fixedRepo (inr []) (inl ErrNotFound) (inr [laptop; phone; tablet]))
            Background [1; 2]) =
    inl (NewDomainError ErrorCodeNotFound
           "Items con IDs [] no encontrados with id <nil> not found" None).
Proof.
  apply (CompareItems_surplus_items_names_nothing _ _ [1; 2]
           [laptop; phone; tablet]).
  - simpl. lia.
  - reflexivity.
  - vm_compute. lia.
  - intros id Hid.
    repeat (apply elem_of_cons in Hid as [->|Hid];
            [apply (bool_decide_unpack _); vm_compute; exact I|]).
    by apply elem_of_nil in Hid.
Defined.

Lemma service_errors_translated repo ctx :
  ((length (calls (GetAllItems repo ctx)) ≤ 1)%nat ∧
   ∀ e, result (GetAllItems repo ctx) = inl e →
        translated (calls (GetAllItems repo ctx)) (failure (GetAll repo ctx)) e) ∧
  (∀ id,
     (length (calls (GetItemByID repo ctx id)) ≤ 1)%nat ∧
     ∀ e, result (GetItemByID repo ctx id) = inl e →
          translated (calls (GetItemByID repo ctx id))
                     (failure (GetByID repo ctx id)) e) ∧
  (∀ ids,
     (length (calls (CompareItems repo ctx ids)) ≤ 1)%nat ∧
     ∀ e, result (CompareItems repo ctx ids) = inl e →
          translated (calls (CompareItems repo ctx ids))
                     (failure (GetByIDs repo ctx (uniqueIDs ids))) e).
Proof.
  unfold translated, failure. split; [|split].
  - rewrite GetAllItems_unfold. simpl. split; [lia|]. intros e He.
    destruct (GetAll repo ctx) as [err|items]; [|done].
    injection He as <-. right; right. simpl. eauto.
  - intros id. destruct (decide (id ≤ 0)) as [Hid|Hid].
    + rewrite GetItemByID_invalid by done. simpl. split; [lia|].
      intros e [= <-]. by left.
    + rewrite GetItemByID_valid by lia. simpl. split; [lia|]. intros e He.
      destruct (GetByID repo ctx id) as [err|item]; [|done].
      destruct (Is err ErrNotFound); injection He as <-.
      * right; left. done.
      * right; right. simpl. eauto.
  - intros ids.
    destruct (decide (length ids < 2)%nat) as [Hlt|Hge].
    { rewrite CompareItems_too_few by done. simpl. split; [lia|].
      intros e [= <-]. by left. }
    destruct (decide (10 < length ids)%nat) as [Hgt|Hle].
    { rewrite CompareItems_too_many by done. simpl. split; [lia|].
      intros e [= <-]. by left. }
    assert (2 ≤ length ids ≤ 10)%nat as Hlen by lia.
    rewrite (CompareItems_calls repo ctx ids Hlen). simpl. split; [lia|].
    intros e He.
    destruct (GetByIDs repo ctx (uniqueIDs ids)) as [err|items] eqn:Hstore.
    + rewrite (CompareItems_store_error _ _ _ err) in He by done.
      injection He as <-. right; right. simpl. eauto.
    + destruct (decide (length items = length (uniqueIDs ids))) as [Heq|Hne].
      * by rewrite (CompareItems_count_match _ _ _ items) in He.
      * rewrite (CompareItems_count_mismatch _ _ _ items) in He by done.
        injection He as <-. right; left. done.
Qed.

(** X4: every operation of the service makes at most one store call,
    and an error it returns is of one of three kinds: a validation
    error, raised before any store call and without a cause; a
    NOT_FOUND error, raised after the store call and without a cause;
    or an INTERNAL_SERVER_ERROR whose cause is the error the store
    call returned.  It never returns BAD_REQUEST or
    TOO_MANY_REQUESTS. *)
Theorem service_error_taxonomy repo ctx :
  ((length (calls (GetAllItems repo ctx)) ≤ 1)%nat ∧
   ∀ e, result (GetAllItems repo ctx) = inl e →
        translated (calls (GetAllItems repo ctx)) (failure (GetAll repo ctx)) e) ∧
  (∀ id,
     (length (calls (GetItemByID repo ctx id)) ≤ 1)%nat ∧
     ∀ e, result (GetItemByID repo ctx id) = inl e →
          translated (calls (GetItemByID repo ctx id))
                     (failure (GetByID repo ctx id)) e) ∧
  (∀ ids,
     (length (calls (CompareItems repo ctx ids)) ≤ 1)%nat ∧
     ∀ e, result (CompareItems repo ctx ids) = inl e →
          translated (calls (CompareItems repo ctx ids))
                     (failure (GetByIDs repo ctx (uniqueIDs ids))) e).
Proof. apply service_errors_translated. Qed.

(** X5: missingItemIDs returns the requested identifiers that no
    found item carries, all of them and in request order: it is the
    request with the identifiers of found items removed, so an
    identifier is listed exactly when it is requested and not found;
    it is empty exactly when every requested identifier was found, it
    is the whole request when nothing was found, it is a subsequence
    of the request and repeats an identifier only if the request
    does. *)
Theorem missingItemIDs_algebra requested found :
  missingItemIDs requested found =
    filter (λ id, id ∉ ID <$> found) requested ∧
  (∀ id, id ∈ missingItemIDs requested found
         ↔ id ∈ requested ∧ id ∉ ID <$> found) ∧
  (missingItemIDs requested found = []
     ↔ ∀ id, id ∈ requested → id ∈ ID <$> found) ∧
  missingItemIDs requested [] = requested ∧
  sublist (missingItemIDs requested found) requested ∧
  (NoDup requested → NoDup (missingItemIDs requested found)) ∧
  (∀ id, id ∈ missingItemIDs requested found → id ∉ ID <$> found).
Proof.
  split; [apply missingItemIDs_filter|].
  split; [intros id; apply elem_of_missingItemIDs|].
  rewrite !missingItemIDs_filter. split; [|split; [|split; [|split]]].
  - split.
    + intros Hnil id Hid. destruct (decide (id ∈ ID <$> found)) as [|Hn]; [done|].
      assert (id ∈ filter (λ id, id ∉ ID <$> found) requested) as Hin
        by (by apply list_elem_of_filter).
      rewrite Hnil in Hin. by apply elem_of_nil in Hin.
    + intros Hall. apply elem_of_nil_inv.
      intros id [Hn Hid]%list_elem_of_filter. by apply Hn, Hall.
  - simpl. induction requested as [|id rest IH]; [done|].
    rewrite filter_cons_True by apply not_elem_of_nil. by rewrite IH.
  - apply sublist_filter.
  - apply NoDup_filter.
  - by intros id [Hn _]%list_elem_of_filter.
Qed.

End service_extras.

(** ** Further properties of the comparison payload *)

Section payload_extras.

Lemma owners_Permutation key items items' :
  items ≡ₚ items' → owners key items ≡ₚ owners key items'.
Proof. intros Hperm. unfold owners. by rewrite Hperm. Qed.

(** X6: the attribute lists of a comparison do not depend on the
    order in which the store returned the items: rearranging the items
    changes neither common_specs nor unique_specs. *)
Theorem specs_independent_of_item_order items items' :
  items ≡ₚ items' →
  findCommonSpecs items = findCommonSpecs items' ∧
  findUniqueSpecs items = findUniqueSpecs items'.
Proof.
  intros Hperm. split.
  - destruct items as [|a items0] eqn:Hitems.
    { apply Permutation_nil_l in Hperm. by subst. }
    rewrite <- Hitems in *.
    assert (items ≠ []) as Hne by (by rewrite Hitems).
    assert (items' ≠ []) as Hne'.
    { intros ->. by apply Permutation_nil_r in Hperm. }
    apply (Sorted_unique String.le); [apply Sorted_findCommonSpecs..|].
    apply NoDup_Permutation; [apply NoDup_findCommonSpecs..|].
    intros key. rewrite !elem_of_findCommonSpecs by done.
    split; intros Hall item Hitem; apply Hall.
    + by rewrite Hperm.
    + by rewrite <- Hperm.
  - symmetry. apply findUniqueSpecs_canonical.
    + intros x key. rewrite findUniqueSpecs_by_id.
      assert (list_to_set (owners key items') =@{gset Z}
              list_to_set (owners key items)) as ->; [|done].
      apply set_eq. intros y. rewrite !elem_of_list_to_set.
      by rewrite (owners_Permutation key items items').
    + intros x l. apply findUniqueSpecs_entry.
Qed.

Lemma specs_independent_of_item_order_witness :
  findCommonSpecs [laptop; phone; tablet] = findCommonSpecs [tablet; laptop; phone] ∧
  findUniqueSpecs [laptop; phone; tablet] = findUniqueSpecs [tablet; laptop; phone].
Proof.
  assert ([laptop; phone; tablet] ≡ₚ [tablet; laptop; phone]) as Hperm.
  { change ([laptop; phone] ++ [tablet] ≡ₚ [tablet] ++ [laptop; phone]).
    apply Permutation_app_comm. }
  exact (specs_independent_of_item_order _ _ Hperm).
Defined.

(** X7: whatever identifiers the items carry, a name that
    findUniqueSpecs lists under an identifier is a key of some item
    with that identifier and of no item with another identifier, it is
    listed under no other identifier, and every identifier of the
    mapping is the identifier of some item. *)
Theorem findUniqueSpecs_entries_owned items x l :
  findUniqueSpecs items !! x = Some l →
  (∃ X, X ∈ items ∧ ID X = x) ∧
  ∀ key, key ∈ l →
    (∃ X, X ∈ items ∧ ID X = x ∧ hasSpec key X) ∧
    (∀ Y, Y ∈ items → hasSpec key Y → ID Y = x) ∧
    (∀ x' l', findUniqueSpecs items !! x' = Some l' → key ∈ l' → x' = x).
Proof.
  intros Hl.
  assert (∀ key, key ∈ l →
            list_to_set (owners key items) =@{gset Z} {[x]}) as Hset.
  { intros key Hkey. apply findUniqueSpecs_by_id. eauto. }
  assert (∀ key, key ∈ l →
            (∃ X, X ∈ items ∧ ID X = x ∧ hasSpec key X) ∧
            (∀ Y, Y ∈ items → hasSpec key Y → ID Y = x)) as Hown.
  { intros key Hkey. specialize (Hset key Hkey). split.
    - assert (x ∈ (list_to_set (owners key items) : gset Z)) as Hx
        by (rewrite Hset; by apply elem_of_singleton).
      apply elem_of_list_to_set in Hx. unfold owners in Hx.
      apply list_elem_of_fmap in Hx as (X & -> & [HX Hin]%list_elem_of_filter).
      eauto.
    - intros Y HY Hhas.
      assert (ID Y ∈ (list_to_set (owners key items) : gset Z)) as Hy.
      { apply elem_of_list_to_set. unfold owners.
        apply list_elem_of_fmap_2. by apply list_elem_of_filter. }
      rewrite Hset in Hy. by apply elem_of_singleton in Hy. }
  split.
  - destruct (findUniqueSpecs_entry items x l Hl) as (Hne & _).
    destruct l as [|key l]; [done|].
    destruct (Hown key) as [(X & HX & Hid & _) _]; [by left|]. eauto.
  - intros key Hkey. destruct (Hown key Hkey) as [Hex Hall].
    split; [done|]. split; [done|].
    intros x' l' Hl' Hkey'.
    assert (list_to_set (owners key items) =@{gset Z} {[x']}) as Hset'.
    { apply findUniqueSpecs_by_id. eauto. }
    rewrite (Hset key Hkey) in Hset'.
    assert (x ∈ ({[x']} : gset Z)) as Hx
      by (rewrite <- Hset'; by apply elem_of_singleton).
    apply elem_of_singleton in Hx. done.
Qed.

Lemma findUniqueSpecs_entries_owned_witness :
  let items := [twin1; twin2; demoItem 3 30 4 ["brand"]] in
  findUniqueSpecs items !! 5 = Some ["color"] ∧
  (∃ X, X ∈ items ∧ ID X = 5) ∧
  ∀ key, key ∈ ["color"] →
    (∃ X, X ∈ items ∧ ID X = 5 ∧ hasSpec key X) ∧
    (∀ Y, Y ∈ items → hasSpec key Y → ID Y = 5) ∧
    (∀ x' l', findUniqueSpecs items !! x' = Some l' → key ∈ l' → x' = 5).
Proof.
  assert (findUniqueSpecs [twin1; twin2; demoItem 3 30 4 ["brand"]] !! 5
          = Some ["color"]) as Hl by reflexivity.
  split; [exact Hl|].
  exact (findUniqueSpecs_entries_owned _ 5 ["color"] Hl).
Defined.

End payload_extras.

Section single_item.
Import errors.

Lemma uniqueIDs_pair_same n : uniqueIDs [n; n] = [n].
Proof.
  rewrite uniqueIDs_firstOccurrences. unfold firstOccurrences. simpl.
  destruct (decide (n ∈ [])) as [Hin|_]; [by apply elem_of_nil in Hin|].
  destruct (decide (n ∈ [n])) as [_|Hnin]; [done|]. destruct Hnin. by left.
Qed.

Lemma owners_singleton_list key X :
  owners key [X] = if decide (hasSpec key X) then [ID X] else [].
Proof.
  unfold owners. destruct (decide (hasSpec key X)).
  - by rewrite filter_cons_True.
  - by rewrite filter_cons_False.
Qed.

(** X8: a request that repeats one identifier compares the item with
    itself: when the store resolves [[n; n]] to the single item [X],
    CompareItems succeeds, common_specs lists every attribute name of
    [X], and unique_specs lists the same names under the identifier of
    [X] (and is empty when [X] has no attribute). *)
Theorem CompareItems_single_item repo ctx n X :
  GetByIDs repo ctx [n] = inr [X] →
  result (CompareItems repo ctx [n; n]) =
    inr (mkCompareResponse [X] (generateComparison [X])) ∧
  (∀ key, key ∈ CommonSpecs (generateComparison [X]) ↔ hasSpec key X) ∧
  UniqueSpecs (generateComparison [X]) =
    if decide (Specifications X = ∅) then ∅
    else {[ ID X := CommonSpecs (generateComparison [X]) ]}.
Proof.
  intros Hstore.
  assert (∀ key, key ∈ findCommonSpecs [X] ↔ hasSpec key X) as Hcommon.
  { intros key. rewrite elem_of_findCommonSpecs by done. split.
    - intros Hall. apply Hall. by left.
    - by intros Hhas item ->%list_elem_of_singleton. }
  split; [|split; [exact Hcommon|]].
  - rewrite (CompareItems_count_match repo ctx [n; n] [X]);
      rewrite ?uniqueIDs_pair_same; done || (simpl; lia).
  - change (findUniqueSpecs [X] =
            if decide (Specifications X = ∅) then ∅
            else {[ ID X := findCommonSpecs [X] ]}).
    symmetry. apply findUniqueSpecs_canonical.
    + intros x key. rewrite owners_singleton_list.
      destruct (decide (Specifications X = ∅)) as [Hempty|Hsome].
      * rewrite decide_False.
        2:{ unfold hasSpec. rewrite Hempty, lookup_empty. by intros [? ?]. }
        split.
        -- intros (l & Hl & _). by rewrite lookup_empty in Hl.
        -- intros Hset. assert (x ∈ (∅ : gset Z)) as Hx
             by (rewrite <- (list_to_set_nil (C:=gset Z)), Hset;
                 by apply elem_of_singleton).
           by apply not_elem_of_empty in Hx.
      * destruct (decide (hasSpec key X)) as [Hhas|Hnot]; split.
        -- intros (l & Hl & _).
           apply lookup_singleton_Some in Hl as [<- _].
           by rewrite list_to_set_singleton_L.
        -- rewrite list_to_set_singleton_L. intros Hset.
           assert (ID X ∈ ({[x]} : gset Z)) as Hx
             by (rewrite <- Hset; by apply elem_of_singleton).
           apply elem_of_singleton in Hx as ->.
           exists (findCommonSpecs [X]). rewrite lookup_singleton_eq.
           split; [done|]. by apply Hcommon.
        -- intros (l & Hl & Hkey).
           apply lookup_singleton_Some in Hl as [_ <-].
           by apply Hcommon in Hkey.
        -- intros Hset. assert (x ∈ (∅ : gset Z)) as Hx
             by (rewrite <- (list_to_set_nil (C:=gset Z)), Hset;
                 by apply elem_of_singleton).
           by apply not_elem_of_empty in Hx.
    + intros x l. destruct (decide (Specifications X = ∅)) as [Hempty|Hsome].
      { by rewrite lookup_empty. }
      intros [_ <-]%lookup_singleton_Some. split; [|split].
      * apply map_choose in Hsome as (key & v & Hkey).
        assert (key ∈ findCommonSpecs [X]) as Hin
          by (apply Hcommon; unfold hasSpec; eauto).
        intros Hnil. rewrite Hnil in Hin. by apply elem_of_nil in Hin.
      * apply Sorted_findCommonSpecs.
      * apply NoDup_findCommonSpecs.
Qed.

Lemma CompareItems_single_item_witness :
  result (CompareItems (sqliteRepo [laptop; phone]) Background [2; 2]) =
    inr (mkCompareResponse [phone] (generateComparison [phone])) ∧
  (∀ key, key ∈ CommonSpecs (generateComparison [phone]) ↔ hasSpec key phone) ∧
  UniqueSpecs (generateComparison [phone]) =
    if decide (Specifications phone = ∅) then ∅
    else {[ ID phone := CommonSpecs (generateComparison [phone]) ]}.
Proof.
  assert (GetByIDs (sqliteRepo [laptop; phone]) Background [2] = inr [phone])
    as Hstore by reflexivity.
  exact (CompareItems_single_item _ _ 2 phone Hstore).
Defined.

End single_item.

Section range_extras.

Lemma generateComparison_ranges items :
  items ≠ [] →
  PriceRange_of (generateComparison items) =
    mkPriceRange (default 0%float (head (sortFloat64s (Price <$> items))))
                 (default 0%float (last (sortFloat64s (Price <$> items)))) ∧
  RatingRange_of (generateComparison items) =
    mkRatingRange (default 0%float (head (sortFloat64s (Rating <$> items))))
                  (default 0%float (last (sortFloat64s (Rating <$> items)))).
Proof. by destruct items. Qed.

Lemma ranges_span_items items :
  items ≠ [] →
  spans (Price <$> items)
        (price_Min (PriceRange_of (generateComparison items)))
        (price_Max (PriceRange_of (generateComparison items))) ∧
  spans (Rating <$> items)
        (rating_Min (RatingRange_of (generateComparison items)))
        (rating_Max (RatingRange_of (generateComparison items))).
Proof.
  intros Hne. destruct (generateComparison_ranges items Hne) as [-> ->].
  simpl. split; apply sortFloat64s_spans; by destruct items.
Qed.

(** X9: for a non-empty list of items, the minimum and the maximum of
    price_range are prices of items of the list, and no item's price
    comes before the minimum or after the maximum in the order of
    sort.Float64s; likewise for rating_range and the ratings. *)
Theorem generateComparison_ranges_span items :
  items ≠ [] →
  spans (Price <$> items)
        (price_Min (PriceRange_of (generateComparison items)))
        (price_Max (PriceRange_of (generateComparison items))) ∧
  spans (Rating <$> items)
        (rating_Min (RatingRange_of (generateComparison items)))
        (rating_Max (RatingRange_of (generateComparison items))).
Proof. exact (ranges_span_items items). Qed.

Lemma generateComparison_ranges_span_witness :
  spans (Price <$> [tablet; laptop; phone]) 100 200 ∧
  spans (Rating <$> [tablet; laptop; phone]) 4 4.75.
Proof.
  assert ([tablet; laptop; phone] ≠ []) as Hne by discriminate.
  exact (generateComparison_ranges_span [tablet; laptop; phone] Hne).
Defined.

(** X10: when no price and no rating of a non-empty list of items is
    a NaN, every item's price lies between the minimum and the maximum
    of price_range, and its rating between those of rating_range, in
    the IEEE order [<=]. *)
Theorem generateComparison_ranges_bound items :
  items ≠ [] →
  Forall (λ it, notNaN (Price it) ∧ notNaN (Rating it)) items →
  ∀ it, it ∈ items →
    PrimFloat.leb (price_Min (PriceRange_of (generateComparison items)))
                  (Price it) = true ∧
    PrimFloat.leb (Price it)
                  (price_Max (PriceRange_of (generateComparison items))) = true ∧
    PrimFloat.leb (rating_Min (RatingRange_of (generateComparison items)))
                  (Rating it) = true ∧
    PrimFloat.leb (Rating it)
                  (rating_Max (RatingRange_of (generateComparison items))) = true.
Proof.
  intros Hne Hnan it Hit.
  destruct (ranges_span_items items Hne)
    as [(Hpl & Hph & Hp) (Hrl & Hrh & Hr)].
  assert (∀ (f : Item → float) x, x ∈ f <$> items →
            (∀ it, it ∈ items → notNaN (f it)) → notNaN x) as Hmem.
  { intros f x (a & -> & Ha)%list_elem_of_fmap Hf. by apply Hf. }
  assert (∀ a, a ∈ items → notNaN (Price a)) as HP
    by (intros a Ha; by apply (proj1 (Forall_forall _ _) Hnan a)).
  assert (∀ a, a ∈ items → notNaN (Rating a)) as HR
    by (intros a Ha; by apply (proj1 (Forall_forall _ _) Hnan a)).
  destruct (Hp (Price it)) as [Hp1 Hp2]; [by apply list_elem_of_fmap_2|].
  destruct (Hr (Rating it)) as [Hr1 Hr2]; [by apply list_elem_of_fmap_2|].
  repeat split; apply lessFloat64_false_leb; eauto.
Qed.

Lemma generateComparison_ranges_bound_witness :
  PrimFloat.leb 100 (Price tablet) = true ∧
  PrimFloat.leb (Price tablet) 200 = true ∧
  PrimFloat.leb 4 (Rating tablet) = true ∧
  PrimFloat.leb (Rating tablet) 4.75 = true.
Proof.
  assert ([tablet; laptop; phone] ≠ []) as Hne by discriminate.
  assert (Forall (λ it, notNaN (Price it) ∧ notNaN (Rating it))
                 [tablet; laptop; phone]) as Hnan
    by (repeat constructor).
  apply (generateComparison_ranges_bound [tablet; laptop; phone] Hne Hnan).
  by left.
Defined.

(** X11: NaN is ordered first: if the price of some item is a NaN,
    the minimum of price_range is a NaN, and likewise for the
    ratings. *)
Theorem generateComparison_nan_is_min items :
  (∀ it, it ∈ items → isNaN (Price it) = true →
         isNaN (price_Min (PriceRange_of (generateComparison items))) = true) ∧
  (∀ it, it ∈ items → isNaN (Rating it) = true →
         isNaN (rating_Min (RatingRange_of (generateComparison items))) = true).
Proof.
  assert (∀ x lo, isNaN x = true → lessFloat64 x lo = false →
                  isNaN lo = true) as Hlow.
  { intros x lo Hx [_ Hl]%orb_false_iff. rewrite Hx in Hl.
    by destruct (isNaN lo). }
  split; intros it Hit Hnan.
  - assert (items ≠ []) as Hne by (by destruct items; [apply elem_of_nil in Hit|]).
    destruct (ranges_span_items items Hne) as [(_ & _ & Hp) _].
    destruct (Hp (Price it)) as [Hlt _]; [by apply list_elem_of_fmap_2|].
    by apply (Hlow (Price it)).
  - assert (items ≠ []) as Hne by (by destruct items; [apply elem_of_nil in Hit|]).
    destruct (ranges_span_items items Hne) as [_ (_ & _ & Hr)].
    destruct (Hr (Rating it)) as [Hlt _]; [by apply list_elem_of_fmap_2|].
    by apply (Hlow (Rating it)).
Qed.

End range_extras.

(** ** The handlers *)

Section handler_facts.
Import errors errors_response.

Lemma parseUint_loop_range s : ∀ n un,
  0 ≤ n → strconv.parseUint_loop s n = inr un → 0 ≤ un.
Proof.
  induction s as [|c s IH]; intros n un Hn; simpl.
  - by intros [= <-].
  - unfold strconv.digit.
    destruct (_ && _) eqn:Hd; [|done].
    apply andb_true_iff in Hd as [Hlo%Z.leb_le Hhi%Z.leb_le].
    destruct (n >=? _); [done|]. destruct (_ >? _); [done|].
    apply IH. lia.
Qed.

(** An identifier accepted by [ParseInt] fits in an [int64]. *)
Lemma ParseInt_range s n :
  strconv.ParseInt s = inr n → - 2 ^ 63 ≤ n < 2 ^ 63.
Proof.
  unfold strconv.ParseInt. destruct s as [|c rest]; [done|].
  set (s := if _ || _ then rest else String c rest).
  destruct (strconv.ParseUint s) as [err|un] eqn:Hu; [done|].
  assert (0 ≤ un) as Hun.
  { unfold strconv.ParseUint in Hu. destruct s; [done|].
    by apply (parseUint_loop_range _ 0 un) in Hu. }
  destruct (bool_decide (c = "-"%char)); simpl.
  - destruct (un >? 2 ^ 63) eqn:Hgt; [done|]. intros [= <-].
    rewrite Z.gtb_ltb in Hgt. apply Z.ltb_ge in Hgt. lia.
  - destruct (un >=? 2 ^ 63) eqn:Hge; [done|]. intros [= <-].
    rewrite Z.geb_leb in Hge. apply Z.leb_gt in Hge. lia.
Qed.

Example ParseInt_examples :
  strconv.ParseInt "999" = inr 999 ∧
  strconv.ParseInt "+7" = inr 7 ∧
  strconv.ParseInt "-9223372036854775808" = inr (- 2 ^ 63) ∧
  strconv.ParseInt "9223372036854775808" =
    inl (strconv.NumError "9223372036854775808" strconv.ErrRange) ∧
  strconv.ParseInt "abc" = inl (strconv.NumError "abc" strconv.ErrSyntax) ∧
  strconv.ParseInt "1_000" = inl (strconv.NumError "1_000" strconv.ErrSyntax) ∧
  strconv.ParseInt "-" = inl (strconv.NumError "-" strconv.ErrSyntax) ∧
  strconv.ParseInt "" = inl (strconv.NumError "" strconv.ErrSyntax).
Proof. repeat split; reflexivity. Qed.

(** X12: handleError always answers with a JSON error body whose
    flag is set and with a status between 400 and 500.  A domain error
    gives its own code and message and the status of its code; an
    error of any other type gives INTERNAL_SERVER_ERROR with a fixed
    message.  The cause wrapped by the error never shows in the
    response. *)
Theorem handleError_response err :
  handlers.ContentType (handlers.handleError err) = "application/json" ∧
  400 ≤ handlers.StatusCode (handlers.handleError err) ≤ 500 ∧
  (∃ er, handlers.Body (handlers.handleError err) = handlers.PayloadError er ∧
         Error er = true ∧
         handlers.StatusCode (handlers.handleError err) =
           HTTPStatus (NewDomainError (Code er) (Message er) None) ∧
         match err with
         | DomainErr code message _ => Code er = code ∧ Message er = message
         | _ => Code er = ErrorCodeInternalServer ∧
                Message er = "un error inesperado ha ocurrido"
         end) ∧
  (∀ code message cause1 cause2,
     handlers.handleError (DomainErr code message cause1) =
     handlers.handleError (DomainErr code message cause2)).
Proof.
  split; [done|]. split; [|split; [|done]].
  - destruct err as [| | | | | | |[] ? ?]; vm_compute; split; discriminate.
  - destruct err; eexists; (split; [reflexivity|]); done.
Qed.

Lemma GetItemByID_handler_cases repo r :
  let out := handlers.GetItemByID (handlers.NewItemService repo) r in
  match strconv.ParseInt (handlers.req_id r) with
  | inl _ =>
      out = ([], handlers.writeJSON 400
                   (handlers.PayloadError
                      (mkErrorResponse true "formato de id de item inválido"
                                       ErrorCodeBadRequest)))
  | inr id =>
      - 2 ^ 63 ≤ id < 2 ^ 63 ∧
      if decide (id ≤ 0) then
        out = ([], handlers.writeJSON 422
                     (handlers.PayloadError
                        (mkErrorResponse true "ID inválido" ErrorCodeValidation)))
      else
        calls out = [CallGetByID (handlers.req_ctx r) id] ∧
        result out =
          match GetByID repo (handlers.req_ctx r) id with
          | inr item => handlers.writeJSON 200 (handlers.PayloadItem item)
          | inl err =>
              if Is err ErrNotFound then
                handlers.writeJSON 404
                  (handlers.PayloadError
                     (mkErrorResponse true
                        ("Item with id " +:+ pretty id +:+ " not found")
                        ErrorCodeNotFound))
              else
                handlers.writeJSON 500
                  (handlers.PayloadError
                     (mkErrorResponse true "error al obtener el item"
                                      ErrorCodeInternalServer))
          end
  end.
Proof.
  simpl. unfold handlers.GetItemByID.
  destruct (strconv.ParseInt (handlers.req_id r)) as [err|id] eqn:Hparse; [done|].
  split; [by apply ParseInt_range in Hparse|].
  simpl. unfold handlers.as_interface.
  destruct (decide (id ≤ 0)) as [Hid|Hid].
  - by rewrite GetItemByID_invalid.
  - rewrite GetItemByID_valid by lia. simpl.
    destruct (GetByID repo (handlers.req_ctx r) id) as [err|item]; [|done].
    by destruct (Is err ErrNotFound).
Qed.

(** X13: GET /items/{id} end to end.  A parameter that [ParseInt]
    rejects gives 400 BAD_REQUEST and an identifier [<= 0] gives 422
    VALIDATION_ERROR, both without a store call; otherwise the store
    is asked once for that identifier, which fits in an [int64], and
    the answer is 200 with the item, 404 NOT_FOUND naming the
    identifier when the store reports ErrNotFound, and 500 with a fixed
    message for any other store error. *)
Theorem GetItemByID_handler_table repo r :
  let out := handlers.GetItemByID (handlers.NewItemService repo) r in
  match strconv.ParseInt (handlers.req_id r) with
  | inl _ =>
      out = ([], handlers.writeJSON 400
                   (handlers.PayloadError
                      (mkErrorResponse true "formato de id de item inválido"
                                       ErrorCodeBadRequest)))
  | inr id =>
      - 2 ^ 63 ≤ id < 2 ^ 63 ∧
      if decide (id ≤ 0) then
        out = ([], handlers.writeJSON 422
                     (handlers.PayloadError
                        (mkErrorResponse true "ID inválido" ErrorCodeValidation)))
      else
        calls out = [CallGetByID (handlers.req_ctx r) id] ∧
        result out =
          match GetByID repo (handlers.req_ctx r) id with
          | inr item => handlers.writeJSON 200 (handlers.PayloadItem item)
          | inl err =>
              if Is err ErrNotFound then
                handlers.writeJSON 404
                  (handlers.PayloadError
                     (mkErrorResponse true
                        ("Item with id " +:+ pretty id +:+ " not found")
                        ErrorCodeNotFound))
              else
                handlers.writeJSON 500
                  (handlers.PayloadError
                     (mkErrorResponse true "error al obtener el item"
                                      ErrorCodeInternalServer))
          end
  end.
Proof. exact (GetItemByID_handler_cases repo r). Qed.

Lemma CompareItems_handler_cases repo r :
  let out := handlers.CompareItems (handlers.NewItemService repo) r in
  match handlers.req_body r with
  | inl _ =>
      out = ([], handlers.writeJSON 400
                   (handlers.PayloadError
                      (mkErrorResponse true
                         "cuerpo de la petición (body) inválido"
                         ErrorCodeBadRequest)))
  | inr req =>
      let ids := handlers.ItemIDs req in
      if decide (length ids < 2 ∨ 10 < length ids)%nat then
        out = ([], handlers.writeJSON 422
                     (handlers.PayloadError
                        (mkErrorResponse true
                           (if decide (length ids < 2)%nat
                            then "se requieren al menos 2 items para comparar"
                            else "máximo 10 items pueden compararse a la vez")
                           ErrorCodeValidation)))
      else
        calls out = [CallGetByIDs (handlers.req_ctx r) (uniqueIDs ids)] ∧
        result out =
          match GetByIDs repo (handlers.req_ctx r) (uniqueIDs ids) with
          | inl err =>
              handlers.writeJSON 500
                (handlers.PayloadError
                   (mkErrorResponse true
                      "error al obtener los items para comparación"
                      ErrorCodeInternalServer))
          | inr items =>
              if decide (length items = distinctCount ids) then
                handlers.writeJSON 200
                  (handlers.PayloadCompare
                     (mkCompareResponse items (generateComparison items)))
              else
                handlers.writeJSON 404
                  (handlers.PayloadError
                     (mkErrorResponse true
                        (notFoundMessage (missingItemIDs (uniqueIDs ids) items))
                        ErrorCodeNotFound))
          end
  end.
Proof.
  simpl. unfold handlers.CompareItems.
  destruct (handlers.req_body r) as [err|[ids]]; [done|]. simpl.
  unfold handlers.as_interface.
  destruct (decide (length ids < 2 ∨ 10 < length ids)%nat) as [[Hlt|Hgt]|Hlen].
  - rewrite CompareItems_too_few by done.
    by destruct (decide (length ids < 2)%nat).
  - rewrite CompareItems_too_many by done.
    destruct (decide (length ids < 2)%nat); [lia|done].
  - assert (2 ≤ length ids ≤ 10)%nat as Hok by lia.
    pose proof (CompareItems_calls repo (handlers.req_ctx r) ids Hok) as Hcalls.
    unfold calls in Hcalls.
    destruct (services.CompareItems repo (handlers.req_ctx r) ids)
      as [trace res] eqn:Hrun.
    simpl in Hcalls. subst trace.
    assert (result (services.CompareItems repo (handlers.req_ctx r) ids) = res)
      as Hres by (by rewrite Hrun).
    destruct (GetByIDs repo (handlers.req_ctx r) (uniqueIDs ids))
      as [err|items] eqn:Hstore.
    + rewrite (CompareItems_store_error _ _ _ err) in Hres by done.
      by subst res.
    + rewrite <- length_uniqueIDs.
      destruct (decide (length items = length (uniqueIDs ids))) as [Heq|Hne].
      * rewrite (CompareItems_count_match _ _ _ items) in Hres by done.
        by subst res.
      * rewrite (CompareItems_count_mismatch _ _ _ items) in Hres by done.
        by subst res.
Qed.

(** X14: POST /items/compare end to end.  A body that cannot be
    decoded gives 400 BAD_REQUEST without a store call; a decoded list
    of fewer than 2 or more than 10 identifiers (an absent list
    included) gives 422 VALIDATION_ERROR, with the message of the
    bound that failed, without a store call;
    otherwise the store is asked once for the deduplicated
    identifiers, and the answer is 500 when the store fails, 404
    NOT_FOUND when it returns another number of items than asked for,
    and 200 with these items and their comparison when the numbers
    agree. *)
Theorem CompareItems_handler_table repo r :
  let out := handlers.CompareItems (handlers.NewItemService repo) r in
  match handlers.req_body r with
  | inl _ =>
      out = ([], handlers.writeJSON 400
                   (handlers.PayloadError
                      (mkErrorResponse true
                         "cuerpo de la petición (body) inválido"
                         ErrorCodeBadRequest)))
  | inr req =>
      let ids := handlers.ItemIDs req in
      if decide (length ids < 2 ∨ 10 < length ids)%nat then
        out = ([], handlers.writeJSON 422
                     (handlers.PayloadError
                        (mkErrorResponse true
                           (if decide (length ids < 2)%nat
                            then "se requieren al menos 2 items para comparar"
                            else "máximo 10 items pueden compararse a la vez")
                           ErrorCodeValidation)))
      else
        calls out = [CallGetByIDs (handlers.req_ctx r) (uniqueIDs ids)] ∧
        result out =
          match GetByIDs repo (handlers.req_ctx r) (uniqueIDs ids) with
          | inl err =>
              handlers.writeJSON 500
                (handlers.PayloadError
                   (mkErrorResponse true
                      "error al obtener los items para comparación"
                      ErrorCodeInternalServer))
          | inr items =>
              if decide (length items = distinctCount ids) then
                handlers.writeJSON 200
                  (handlers.PayloadCompare
                     (mkCompareResponse items (generateComparison items)))
              else
                handlers.writeJSON 404
                  (handlers.PayloadError
                     (mkErrorResponse true
                        (notFoundMessage (missingItemIDs (uniqueIDs ids) items))
                        ErrorCodeNotFound))
          end
  end.
Proof. exact (CompareItems_handler_cases repo r). Qed.

(** X15: whatever the store and the request, each of the three
    handlers answers in JSON and in agreement with the store calls
    made: a payload with status 200 after exactly one store call, or
    an error whose code and status go together -- 400 and 422 before
    any store call, 404 and 500 after exactly one.  No handler answers
    with another status. *)
Theorem handlers_coherent repo r :
  let service := handlers.NewItemService repo in
  coherent (calls (handlers.GetAllItems service r))
           (result (handlers.GetAllItems service r)) ∧
  coherent (calls (handlers.GetItemByID service r))
           (result (handlers.GetItemByID service r)) ∧
  coherent (calls (handlers.CompareItems service r))
           (result (handlers.CompareItems service r)).
Proof.
  simpl. split; [|split].
  - unfold handlers.GetAllItems. simpl. unfold handlers.as_interface.
    rewrite GetAllItems_unfold. simpl.
    destruct (GetAll repo (handlers.req_ctx r)); simpl; unfold coherent; simpl.
    + split; [done|]. split; [done|]. right; right; right. done.
    + done.
  - pose proof (GetItemByID_handler_cases repo r) as H. simpl in H.
    destruct (strconv.ParseInt (handlers.req_id r)) as [err|id].
    { rewrite H. unfold coherent. simpl. split; [done|]. split; [done|].
      by left. }
    destruct H as [_ H]. destruct (decide (id ≤ 0)).
    { rewrite H. unfold coherent. simpl. split; [done|]. split; [done|].
      right; left. done. }
    destruct H as [-> ->].
    destruct (GetByID repo (handlers.req_ctx r) id) as [err|item];
      [destruct (Is err ErrNotFound)|]; unfold coherent; simpl.
    + split; [done|]. split; [done|]. right; right; left. done.
    + split; [done|]. split; [done|]. right; right; right. done.
    + done.
  - pose proof (CompareItems_handler_cases repo r) as H. simpl in H.
    destruct (handlers.req_body r) as [err|req].
    { rewrite H. unfold coherent. simpl. split; [done|]. split; [done|].
      by left. }
    destruct (decide _) as [Hbad|Hok].
    { rewrite H. unfold coherent. simpl. split; [done|]. split; [done|].
      right; left. done. }
    destruct H as [-> ->].
    destruct (GetByIDs repo (handlers.req_ctx r) _) as [err|items];
      [|destruct (decide _)]; unfold coherent; simpl.
    + split; [done|]. split; [done|]. right; right; right. done.
    + done.
    + split; [done|]. split; [done|]. right; right; left. done.
Qed.

End handler_facts.

(** ** The SQLite repository *)

Section sqlite_facts.
Import errors.

Lemma commaMarks_S n : commaMarks (S n) = ",?" +:+ commaMarks n.
Proof.
  unfold commaMarks. rewrite <- cons_seq. simpl. f_equal.
  generalize 0%nat 1%nat. induction n as [|n IH]; intros a b; [done|].
  simpl. f_equal. apply IH.
Qed.

Lemma questionMarks_S n : questionMarks (S n) = "?" +:+ commaMarks n.
Proof.
  unfold questionMarks. induction n as [|n IH]; [done|].
  rewrite commaMarks_S. change (replicate (S (S n)) "?")
    with ("?" :: replicate (S n) "?").
  change (String.concat "," ("?" :: replicate (S n) "?"))
    with ("?" +:+ "," +:+ String.concat "," (replicate (S n) "?")).
  rewrite IH. by rewrite !string_app_cons, !string_app_nil.
Qed.

Lemma placeholders_loop_S ids : ∀ i acc,
  sqlite.placeholders_loop (S i) ids acc = acc +:+ commaMarks (length ids).
Proof.
  induction ids as [|id rest IH]; intros i acc; simpl.
  - change (commaMarks 0) with "". clear. induction acc; [done|].
    rewrite string_app_cons. by f_equal.
  - rewrite IH, commaMarks_S, !string_app_assoc. done.
Qed.

Lemma placeholders_questionMarks ids :
  sqlite.placeholders ids = questionMarks (length ids).
Proof.
  unfold sqlite.placeholders. destruct ids as [|id rest]; [done|].
  simpl. rewrite placeholders_loop_S, questionMarks_S.
  by rewrite string_app_nil.
Qed.

Lemma error_eqb_refl : ∀ e, error_eqb e e = true.
Proof.
  fix IH 1. intros [| | | | |s|s c|c s [e|]]; simpl;
    rewrite ?bool_decide_eq_true_2 by done; try done; apply IH.
Qed.

Lemma Is_refl e : Is e e = true.
Proof. pose proof (error_eqb_refl e) as H. destruct e; simpl in *; by rewrite ?H. Qed.

Lemma Is_WrapError_cause message cause : Is (WrapError message cause) cause = true.
Proof. simpl. rewrite Is_refl. apply orb_true_r. Qed.

Lemma readRows_inr b m1 m2 rows : ∀ acc items,
  sqlite.readRows b m1 m2 rows acc = inr items ↔
  ∃ new, items = acc ++ new ∧ Forall2 (rowItem b) rows new.
Proof.
  induction rows as [|[err|cols] rest IH]; intros acc items; simpl.
  - split.
    + intros [= <-]. exists []. by rewrite app_nil_r.
    + intros (new & -> & ->%Forall2_nil_inv_l). by rewrite app_nil_r.
  - split; [done|].
    intros (new & _ & Hall). apply Forall2_cons_inv_l in Hall
      as (item & new' & (cols & [=] & _) & _ & _).
  - destruct (sqlite.Unmarshal b (sqlite.col_specifications cols))
      as [err|specs] eqn:Hdec.
    + split; [done|].
      intros (new & _ & Hall). apply Forall2_cons_inv_l in Hall
        as (item & new' & (cols' & [= <-] & Hdec' & _) & _ & _).
      congruence.
    + rewrite IH. split.
      * intros (new & -> & Hall). exists (sqlite.toItem cols specs :: new).
        split; [by rewrite <- app_assoc|].
        constructor; [|done]. exists cols. by rewrite Hdec.
      * intros (new & -> & Hall). apply Forall2_cons_inv_l in Hall
          as (item & new' & (cols' & [= <-] & Hdec' & Hitem) & Hall & ->).
        exists new'. split; [|done].
        rewrite <- app_assoc. simpl. do 2 f_equal.
        rewrite Hitem. congruence.
Qed.

Lemma readRows_inl b m1 m2 rows : ∀ acc err,
  sqlite.readRows b m1 m2 rows acc = inl err →
  ∃ message cause, err = WrapError message cause.
Proof.
  induction rows as [|[e|cols] rest IH]; intros acc err; simpl; [done| |].
  - intros [= <-]. eauto.
  - destruct (sqlite.Unmarshal b _); [intros [= <-]; eauto|apply IH].
Qed.

(** X16: the bulk query of the repository is parameterised.  The
    placeholders are as many question marks as identifiers, separated
    by commas, so the query text depends on the number of identifiers
    only, never on their values, which travel as the arguments of the
    query, in order.  It is the only use [GetByIDs] makes of the
    database: two backends that answer this query alike and decode
    alike give the same result; and for no identifier the database is
    not consulted at all. *)
Theorem GetByIDs_parameterised b b' ctx ids ids' :
  sqlite.placeholders ids = questionMarks (length ids) ∧
  (length ids = length ids' → sqlite.queryByIDs ids = sqlite.queryByIDs ids') ∧
  sqlite.GetByIDs b ctx [] = inr [] ∧
  (sqlite.QueryContext b ctx (sqlite.queryByIDs ids) ids =
     sqlite.QueryContext b' ctx (sqlite.queryByIDs ids) ids →
   (∀ text, sqlite.Unmarshal b text = sqlite.Unmarshal b' text) →
   sqlite.GetByIDs b ctx ids = sqlite.GetByIDs b' ctx ids).
Proof.
  split; [apply placeholders_questionMarks|]. split; [|split; [done|]].
  - intros Hlen. unfold sqlite.queryByIDs.
    by rewrite !placeholders_questionMarks, Hlen.
  - intros Hquery Hdec. unfold sqlite.GetByIDs. rewrite Hquery.
    destruct (length ids =? 0)%nat; [done|].
    destruct (sqlite.QueryContext b' ctx _ ids) as [err|rows]; [done|].
    assert (∀ m1 m2 scans acc,
      sqlite.readRows b m1 m2 scans acc = sqlite.readRows b' m1 m2 scans acc)
      as ->; [|done].
    intros m1 m2 scans. induction scans as [|[e|cols] rest IH]; intros acc;
      simpl; [done..|].
    rewrite Hdec. by destruct (sqlite.Unmarshal b' _).
Qed.

(** X17: [GetAll] and [GetByIDs] read all the rows or fail.  Each
    returns items exactly when the query succeeded, every row was
    scanned, every specifications column was decoded and the iteration
    reported no error; the items are then the rows, one for one and in
    the order in which the database gave them.  Every error they
    return wraps its cause with a message of the repository. *)
Theorem sqlite_reads_all_rows_or_fails b ctx ids :
  (∀ items,
     sqlite.GetAll b ctx = inr items ↔
     ∃ rows, sqlite.QueryContext b ctx sqlite.queryAll [] = inr rows ∧
             sqlite.rows_Err rows = None ∧
             Forall2 (rowItem b) (sqlite.scans rows) items) ∧
  (∀ items,
     ids ≠ [] →
     sqlite.GetByIDs b ctx ids = inr items ↔
     ∃ rows, sqlite.QueryContext b ctx (sqlite.queryByIDs ids) ids = inr rows ∧
             sqlite.rows_Err rows = None ∧
             Forall2 (rowItem b) (sqlite.scans rows) items) ∧
  (∀ err,
     sqlite.GetAll b ctx = inl err ∨ sqlite.GetByIDs b ctx ids = inl err →
     ∃ message cause, err = WrapError message cause ∧ Is err cause = true).
Proof.
  pose proof Is_WrapError_cause as HIs.
  split; [|split].
  - intros items. unfold sqlite.GetAll.
    destruct (sqlite.QueryContext b ctx sqlite.queryAll []) as [err|rows].
    { split; [done|]. by intros (rows & [=] & _). }
    destruct (sqlite.readRows _ _ _ _ _) as [err|read] eqn:Hread.
    + split; [done|]. intros (rows' & [= <-] & _ & Hall).
      assert (sqlite.readRows b "failed to scan item"
                "failed to unmarshal specifications" (sqlite.scans rows) []
              = inr items) as Hok by (apply readRows_inr; eauto).
      congruence.
    + apply readRows_inr in Hread as (new & -> & Hall). simpl.
      destruct (sqlite.rows_Err rows) as [err|] eqn:Herr.
      * split; [done|]. intros (rows' & [= <-] & Hnone & _). congruence.
      * split.
        -- intros [= <-]. eauto.
        -- intros (rows' & [= <-] & _ & Hall'). f_equal.
           clear -Hall Hall'. revert items Hall'.
           induction Hall as [|scan item scans new' Hrow _ IH];
             intros items Hall'.
           ++ by apply Forall2_nil_inv_l in Hall'.
           ++ apply Forall2_cons_inv_l in Hall'
                as (item' & items' & Hrow' & Hall' & ->).
              f_equal; [|by apply IH].
              destruct Hrow as (cols & -> & Hdec & ->).
              destruct Hrow' as (cols' & [= <-] & Hdec' & ->).
              f_equal. congruence.
  - intros items Hids. unfold sqlite.GetByIDs.
    destruct ids as [|id rest]; [done|]. simpl length. simpl Nat.eqb.
    cbv iota.
    destruct (sqlite.QueryContext b ctx _ (id :: rest)) as [err|rows].
    { split; [done|]. by intros (rows & [=] & _). }
    destruct (sqlite.readRows _ _ _ _ _) as [err|read] eqn:Hread.
    + split; [done|]. intros (rows' & [= <-] & _ & Hall).
      assert (sqlite.readRows b "error al escanear el ítem"
                "error al deserializar las especificaciones"
                (sqlite.scans rows) [] = inr items) as Hok
        by (apply readRows_inr; eauto).
      congruence.
    + apply readRows_inr in Hread as (new & -> & Hall). simpl.
      destruct (sqlite.rows_Err rows) as [err|] eqn:Herr.
      * split; [done|]. intros (rows' & [= <-] & Hnone & _). congruence.
      * split.
        -- intros [= <-]. eauto.
        -- intros (rows' & [= <-] & _ & Hall'). f_equal.
           clear -Hall Hall'. revert items Hall'.
           induction Hall as [|scan item scans new' Hrow _ IH];
             intros items Hall'.
           ++ by apply Forall2_nil_inv_l in Hall'.
           ++ apply Forall2_cons_inv_l in Hall'
                as (item' & items' & Hrow' & Hall' & ->).
              f_equal; [|by apply IH].
              destruct Hrow as (cols & -> & Hdec & ->).
              destruct Hrow' as (cols' & [= <-] & Hdec' & ->).
              f_equal. congruence.
  - intros err [Hall|Hby].
    + unfold sqlite.GetAll in Hall.
      destruct (sqlite.QueryContext b ctx sqlite.queryAll []) as [e|rows].
      { injection Hall as <-. eauto. }
      destruct (sqlite.readRows _ _ _ _ _) as [e|read] eqn:Hread.
      * injection Hall as <-.
        apply readRows_inl in Hread as (message & cause & ->). eauto.
      * destruct (sqlite.rows_Err rows); [|done].
        injection Hall as <-. eauto.
    + unfold sqlite.GetByIDs in Hby.
      destruct (length ids =? 0)%nat; [done|].
      destruct (sqlite.QueryContext b ctx _ ids) as [e|rows].
      { injection Hby as <-. eauto. }
      destruct (sqlite.readRows _ _ _ _ _) as [e|read] eqn:Hread.
      * injection Hby as <-.
        apply readRows_inl in Hread as (message & cause & ->). eauto.
      * destruct (sqlite.rows_Err rows); [|done].
        injection Hby as <-. eauto.
Qed.

Example sqlite_rows_in_database_order :
  sqlite.placeholders [5; 6; 7] = "?,?,?" ∧
  sqlite.GetByIDs demoBackend Background [1; 2] =
    inr [sqlite.toItem (demoColumns 2 "{}") ∅;
         sqlite.toItem (demoColumns 1 "{}") ∅] ∧
  sqlite.GetAll (rowsBackend brokenRows) Background =
    inl (WrapError "failed to unmarshal specifications"
                   (ErrorString "unexpected end of JSON input")).
Proof. repeat split; reflexivity. Qed.

(** X18: [GetByID] reports ErrNotFound exactly when the single-row
    query fails with [sql.ErrNoRows] itself, compared by identity.
    Through the service, for a positive identifier: that failure gives
    the NOT_FOUND error naming the identifier; any other failure of
    the query or of the decoding of the specifications column, as long
    as it does not itself wrap ErrNotFound, gives an
    INTERNAL_SERVER_ERROR that keeps the repository's wrapped error;
    a row whose specifications decode gives the item of that row. *)
Theorem GetItemByID_over_sqlite b ctx id :
  0 < id →
  (sqlite.GetByID b ctx id = inl ErrNotFound ↔
   sqlite.QueryRowContext b ctx sqlite.queryByID [id] = inl SqlErrNoRows) ∧
  let out := result (GetItemByID (sqlite.repository b) ctx id) in
  let internal message cause :=
    inl (NewDomainError ErrorCodeInternalServer "error al obtener el item"
           (Some (WrapError message cause))) in
  match sqlite.QueryRowContext b ctx sqlite.queryByID [id] with
  | inl SqlErrNoRows =>
      out = inl (NewDomainError ErrorCodeNotFound
                   ("Item with id " +:+ pretty id +:+ " not found") None)
  | inl err =>
      Is err ErrNotFound = false →
      out = internal "error al consultar item" err
  | inr cols =>
      match sqlite.Unmarshal b (sqlite.col_specifications cols) with
      | inl err =>
          Is err ErrNotFound = false →
          out = internal "error al deserializar las especificaciones" err
      | inr specs => out = inr (sqlite.toItem cols specs)
      end
  end.
Proof.
  intros Hid. split.
  - unfold sqlite.GetByID.
    destruct (sqlite.QueryRowContext b ctx sqlite.queryByID [id])
      as [[]|cols]; try done.
    by destruct (sqlite.Unmarshal b _).
  - cbv zeta. rewrite GetItemByID_valid by done. simpl.
    unfold sqlite.GetByID.
    destruct (sqlite.QueryRowContext b ctx sqlite.queryByID [id])
      as [[]|cols]; simpl; try done; try (by intros ->).
    destruct (sqlite.Unmarshal b _); simpl; [by intros ->|done].
Qed.

Lemma GetItemByID_over_sqlite_witness :
  result (GetItemByID (sqlite.repository demoBackend) Background 2) =
    inl (NewDomainError ErrorCodeNotFound "Item with id 2 not found" None).
Proof.
  pose proof (GetItemByID_over_sqlite demoBackend Background 2) as H.
  apply H. lia.
Defined.

End sqlite_facts.

(** ** The registry of the rate limiter *)

Section rate_limiter.
Import middleware.

Lemma cleanup_loop_lookup cutoff (m0 m : gmap string clientLimiter) k :
  map_fold (λ ip cl acc, if lastAccess cl <? cutoff then delete ip acc else acc)
           m0 m !! k =
  match m !! k with
  | Some cl => if lastAccess cl <? cutoff then None else m0 !! k
  | None => m0 !! k
  end.
Proof.
  revert k.
  apply (map_fold_weak_ind (λ r (m : gmap string clientLimiter),
    ∀ k, r !! k = match m !! k with
                  | Some cl => if lastAccess cl <? cutoff then None else m0 !! k
                  | None => m0 !! k
                  end)).
  - intros k. by rewrite lookup_empty.
  - intros i x m' r Hi IH k. destruct (decide (i = k)) as [->|Hne].
    + rewrite lookup_insert_eq. destruct (lastAccess x <? cutoff).
      * by rewrite lookup_delete_eq.
      * rewrite IH, Hi. done.
    + rewrite lookup_insert_ne by done. destruct (lastAccess x <? cutoff).
      * rewrite lookup_delete_ne by done. apply IH.
      * apply IH.
Qed.

Lemma performCleanup_lookup rl now k :
  clients (performCleanup rl now) !! k =
  match clients rl !! k with
  | Some cl => if decide (stale rl now cl) then None else Some cl
  | None => None
  end.
Proof.
  unfold performCleanup. simpl. rewrite cleanup_loop_lookup.
  destruct (clients rl !! k) as [cl|] eqn:Hk; [|done].
  unfold stale. destruct (lastAccess cl <? _) eqn:Hlt.
  - apply Z.ltb_lt in Hlt. destruct (decide _); [done|lia].
  - apply Z.ltb_ge in Hlt. destruct (decide _); [lia|done].
Qed.

Lemma getLimiter_clients heap rl now ip :
  clients (getLimiter heap rl now ip).1.2 =
  <[ip := mkClientLimiter (getLimiter heap rl now ip).2 now]> (clients rl).
Proof. unfold getLimiter. by destruct (clients rl !! ip). Qed.

Lemma getLimiter_heap heap rl now ip :
  (getLimiter heap rl now ip).1.1 =
  match clients rl !! ip with
  | Some _ => heap
  | None => heap ++ [mkLimiterArgs (rateLimit rl) (timeWindow rl) (rateLimit rl)]
  end.
Proof. unfold getLimiter. by destruct (clients rl !! ip). Qed.

Lemma getLimiter_limiter heap rl now ip :
  (getLimiter heap rl now ip).2 =
  match clients rl !! ip with
  | Some cl => limiter cl
  | None => length heap
  end.
Proof. unfold getLimiter. by destruct (clients rl !! ip). Qed.

Lemma getLimiter_isolated heap rl now ip :
  isolated (heap, rl) → isolated (getLimiter heap rl now ip).1.
Proof.
  intros [Hinj Halloc]. simpl in *.
  assert (∀ k cl, clients (getLimiter heap rl now ip).1.2 !! k = Some cl →
            (k = ip ∧ limiter cl = (getLimiter heap rl now ip).2) ∨
            (k ≠ ip ∧ clients rl !! k = Some cl)) as Hcases.
  { intros k cl. rewrite getLimiter_clients.
    destruct (decide (k = ip)) as [->|Hne].
    - rewrite lookup_insert_eq. intros [= <-]. by left.
    - rewrite lookup_insert_ne by done. by right. }
  assert (∀ k cl, k ≠ ip → clients rl !! k = Some cl →
            limiter cl ≠ (getLimiter heap rl now ip).2) as Hother.
  { intros k cl Hne Hk. rewrite getLimiter_limiter.
    destruct (clients rl !! ip) as [cl'|] eqn:Hip.
    - intros Heq. by apply Hne, (Hinj k ip cl cl').
    - apply Halloc in Hk. lia. }
  split.
  - intros ip1 ip2 cl1 cl2 [[-> H1]|[Hne1 H1]]%Hcases [[-> H2]|[Hne2 H2]]%Hcases Heq;
      try done.
    + exfalso. apply (Hother ip2 cl2); [done..|]. congruence.
    + exfalso. apply (Hother ip1 cl1); [done..|]. congruence.
    + by apply (Hinj ip1 ip2 cl1 cl2).
  - intros k cl [[-> Hl]|[Hne Hk]]%Hcases.
    + rewrite Hl, getLimiter_limiter, getLimiter_heap.
      destruct (clients rl !! ip) as [cl'|] eqn:Hip.
      * by apply (Halloc ip).
      * rewrite length_app. simpl. lia.
    + apply Halloc in Hk. rewrite getLimiter_heap.
      destruct (clients rl !! ip); [done|]. rewrite length_app. simpl. lia.
Qed.

Lemma performCleanup_isolated heap rl now :
  isolated (heap, rl) → isolated (heap, performCleanup rl now).
Proof.
  assert (∀ k cl, clients (performCleanup rl now) !! k = Some cl →
            clients rl !! k = Some cl) as Hsub.
  { intros k cl. rewrite performCleanup_lookup.
    destruct (clients rl !! k) as [cl'|]; [|done].
    by destruct (decide _). }
  intros [Hinj Halloc]. split; simpl in *.
  - intros ip1 ip2 cl1 cl2 H1%Hsub H2%Hsub. by apply Hinj.
  - intros k cl Hk%Hsub. by apply (Halloc k).
Qed.

(** X19: a cleanup evicts exactly the stale clients.  After
    [performCleanup] at time [now] the registry holds the entries
    whose last access is not before [now] minus the eviction age, each
    unchanged, and no other; the settings of the rate limiter are
    untouched.  That the loop deletes from the map it ranges over, in
    an order that is not fixed, makes no difference. *)
Theorem performCleanup_evicts_stale rl now :
  clients (performCleanup rl now) =
    filter (λ entry, ¬ stale rl now entry.2) (clients rl) ∧
  rateLimit (performCleanup rl now) = rateLimit rl ∧
  timeWindow (performCleanup rl now) = timeWindow rl ∧
  cleanupInterval (performCleanup rl now) = cleanupInterval rl ∧
  limiterEvictionAge (performCleanup rl now) = limiterEvictionAge rl.
Proof.
  split; [|done]. apply map_eq. intros k. apply option_eq. intros cl.
  rewrite performCleanup_lookup, map_lookup_filter_Some. simpl.
  destruct (clients rl !! k) as [cl'|]; [|naive_solver].
  destruct (decide (stale rl now cl')) as [Hs|Hs].
  - split; [done|]. by intros [[= ->] ?].
  - split; [by intros [= ->]|]. by intros [? _].
Qed.

(** X20: whatever requests arrive and whenever the cleanup runs,
    starting from a new rate limiter, no two clients ever share a
    limiter, every registered limiter has been allocated, every
    limiter was created with the limit and the burst the rate limiter
    was configured with, and the configuration never changes: the
    eviction age stays 10 minutes and the cleanup interval 5. *)
Theorem rate_limiter_invariant limit window events :
  let st := run events ([], NewRateLimiter limit window) in
  isolated st ∧
  Forall (λ args, args = mkLimiterArgs limit window limit) st.1 ∧
  rateLimit st.2 = limit ∧ timeWindow st.2 = window ∧
  cleanupInterval st.2 = 5 * Minute ∧ limiterEvictionAge st.2 = 10 * Minute.
Proof.
  simpl.
  set (Inv := λ st : Heap * RateLimiter,
    isolated st ∧
    Forall (λ args, args = mkLimiterArgs limit window limit) st.1 ∧
    rateLimit st.2 = limit ∧ timeWindow st.2 = window ∧
    cleanupInterval st.2 = 5 * Minute ∧ limiterEvictionAge st.2 = 10 * Minute).
  assert (∀ evs st, Inv st → Inv (run evs st)) as Hrun.
  { induction evs as [|e evs IH]; intros st HInv; [done|].
    simpl. apply IH. destruct st as [heap rl].
    destruct HInv as (Hiso & Hheap & Hl & Hw & Hc & He).
    destruct e as [ip now|now]; simpl in *.
    - split; [by apply getLimiter_isolated|].
      rewrite getLimiter_heap. unfold getLimiter.
      destruct (clients rl !! ip); simpl; [done|].
      split; [|done]. apply Forall_app. split; [done|].
      constructor; [|done]. by rewrite Hl, Hw.
    - split; [by apply performCleanup_isolated|]. done. }
  apply Hrun. split; [|by split].
  split; simpl; intros *; by rewrite lookup_empty.
Qed.

Example rate_limiter_run :
  let st := run [Arrival "10.0.0.1" 0; Arrival "10.0.0.2" (2 * Minute);
                 Tick (11 * Minute); Arrival "10.0.0.1" (11 * Minute)]
                ([], NewRateLimiter 100 Minute) in
  length st.1 = 3%nat ∧
  clients st.2 =
    {[ "10.0.0.1" := mkClientLimiter 2 (11 * Minute);
       "10.0.0.2" := mkClientLimiter 1 (2 * Minute) ]}.
Proof. split; [reflexivity|]. by vm_compute. Qed.

(** X21: a client keeps its limiter across a cleanup exactly when
    it is not stale.  A client that asked for its limiter at time [t]
    and asks again after a cleanup at time [now] gets the same limiter
    back, and no limiter is allocated, if [t] is not before [now] minus
    the eviction age; otherwise it gets a newly allocated limiter,
    different from the one it had, so that its bucket is full again. *)
Theorem limiter_kept_unless_stale heap rl clientIP t now now' :
  isolated (heap, rl) →
  let first := getLimiter heap rl t clientIP in
  let second :=
    getLimiter first.1.1 (performCleanup first.1.2 now) now' clientIP in
  if decide (t < now - limiterEvictionAge rl) then
    second.2 ≠ first.2 ∧ second.2 = length first.1.1 ∧
    second.1.1 =
      first.1.1 ++ [mkLimiterArgs (rateLimit rl) (timeWindow rl) (rateLimit rl)]
  else
    second.2 = first.2 ∧ second.1.1 = first.1.1.
Proof.
  intros Hiso. simpl.
  pose proof (getLimiter_isolated heap rl t clientIP Hiso) as [_ Halloc].
  set (first := getLimiter heap rl t clientIP) in *.
  assert (clients first.1.2 !! clientIP = Some (mkClientLimiter first.2 t))
    as Hfirst.
  { unfold first. by rewrite getLimiter_clients, lookup_insert_eq. }
  assert (limiterEvictionAge first.1.2 = limiterEvictionAge rl ∧
          rateLimit first.1.2 = rateLimit rl ∧
          timeWindow first.1.2 = timeWindow rl) as (Hage & Hlimit & Hwindow).
  { unfold first, getLimiter. by destruct (clients rl !! clientIP). }
  rewrite getLimiter_limiter, getLimiter_heap, performCleanup_lookup, Hfirst.
  destruct (decide (t < now - limiterEvictionAge rl)) as [Hstale|Hfresh].
  - rewrite decide_True by (unfold stale; simpl; lia).
    split; [|split; [done|]].
    + apply Halloc in Hfirst. simpl in Hfirst. lia.
    + unfold performCleanup, set_clients. simpl. by rewrite Hlimit, Hwindow.
  - by rewrite decide_False by (unfold stale; simpl; lia).
Qed.

Lemma limiter_kept_unless_stale_witness :
  let rl := NewRateLimiter 100 Minute in
  let first := getLimiter [] rl 0 "10.0.0.1" in
  let second :=
    getLimiter first.1.1 (performCleanup first.1.2 (11 * Minute))
               (11 * Minute) "10.0.0.1" in
  second.2 ≠ first.2.
Proof.
  intros rl first second.
  assert (isolated ([], rl)) as Hiso.
  { split; simpl; intros *; by rewrite lookup_empty. }
  pose proof (limiter_kept_unless_stale [] rl "10.0.0.1" 0 (11 * Minute)
                (11 * Minute) Hiso) as H.
  cbv zeta in H. rewrite decide_True in H by reflexivity.
  exact (proj1 H).
Defined.

End rate_limiter.

(** ** Identifiers in decimal *)

Section decimal_identifiers.
Import errors errors_response.

Lemma digit_pretty_N_char d :
  (d < 10)%N → strconv.digit (pretty_N_char d) = Some (Z.of_N d).
Proof.
  intros Hd.
  assert (d = 0 ∨ d = 1 ∨ d = 2 ∨ d = 3 ∨ d = 4 ∨ d = 5 ∨ d = 6 ∨ d = 7 ∨
          d = 8 ∨ d = 9)%N as Hcases by lia.
  repeat destruct Hcases as [->|Hcases]; try done. by subst.
Qed.

Lemma pretty_N_char_not_sign d :
  pretty_N_char d ≠ "+"%char ∧ pretty_N_char d ≠ "-"%char.
Proof. unfold pretty_N_char. by repeat case_match. Qed.

Lemma parseUint_loop_pretty_N_go x : ∀ s,
  (Z.of_N x ≤ strconv.maxUint64) →
  strconv.parseUint_loop (pretty_N_go x s) 0 =
  strconv.parseUint_loop s (Z.of_N x).
Proof.
  induction (N.lt_wf_0 x) as [x _ IH]; intros s Hx.
  assert (x = 0 ∨ 0 < x)%N as [->|Hpos] by lia.
  - by rewrite pretty_N_go_0.
  - rewrite pretty_N_go_step by done.
    pose proof (N.Div0.div_mod x 10) as Hdm.
    pose proof (N.mod_lt x 10) as Hmod.
    assert (Z.of_N x = Z.of_N (x `div` 10) * 10 + Z.of_N (x `mod` 10))
      as Hx' by lia.
    unfold strconv.maxUint64 in *.
    change (2 ^ 64 - 1) with 18446744073709551615 in *.
    assert (Z.of_N (x `div` 10) ≤ 1844674407370955161) as Hq.
    { rewrite N2Z.inj_div.
      change 1844674407370955161 with (18446744073709551615 `div` 10).
      apply Z.div_le_mono; lia. }
    assert (Z.of_N (x `mod` 10) < 10) as Hr.
    { rewrite N2Z.inj_mod. apply Z.mod_pos_bound. lia. }
    rewrite IH; [|apply N.div_lt; lia|lia].
    simpl. rewrite digit_pretty_N_char by lia.
    unfold strconv.maxUint64.
    change (2 ^ 64 - 1) with 18446744073709551615.
    change (18446744073709551615 `div` 10 + 1) with 1844674407370955162.
    rewrite Z.geb_leb, (proj2 (Z.leb_gt _ _)) by lia.
    rewrite <- Hx'.
    by rewrite Z.gtb_ltb, (proj2 (Z.ltb_ge _ _)) by lia.
Qed.

Lemma pretty_N_go_head x : ∀ s,
  (0 < x)%N → ∃ d rest, pretty_N_go x s = String (pretty_N_char d) rest.
Proof.
  induction (N.lt_wf_0 x) as [x _ IH]; intros s Hpos.
  rewrite pretty_N_go_step by done.
  destruct (N.eq_0_gt_0_cases (x `div` 10)) as [->|Hdiv].
  - rewrite pretty_N_go_0. eauto.
  - apply IH; [apply N.div_lt; lia|done].
Qed.

Lemma ParseUint_pretty_positive p :
  Z.pos p ≤ strconv.maxUint64 →
  ∃ d rest, pretty (N.pos p) = String (pretty_N_char d) rest ∧
            strconv.ParseUint (pretty (N.pos p)) = inr (Z.pos p).
Proof.
  intros Hp. unfold pretty, pretty_N. rewrite decide_False by done.
  destruct (pretty_N_go_head (N.pos p) "") as (d & rest & Hhead); [lia|].
  exists d, rest. split; [done|].
  assert (∀ s, s ≠ "" → strconv.ParseUint s = strconv.parseUint_loop s 0)
    as -> by (by intros []).
  - by rewrite parseUint_loop_pretty_N_go.
  - by rewrite Hhead.
Qed.

(** Parsing the decimal text of an [int64] gives it back. *)
Lemma ParseInt_pretty n :
  - 2 ^ 63 ≤ n < 2 ^ 63 → strconv.ParseInt (pretty n) = inr n.
Proof.
  intros Hn. destruct n as [|p|p]; [done| |].
  - destruct (ParseUint_pretty_positive p) as (d & rest & Hhead & Hparse).
    { unfold strconv.maxUint64. lia. }
    unfold pretty, pretty_Z, pretty, pretty_positive.
    unfold strconv.ParseInt. rewrite Hhead at 1.
    destruct (pretty_N_char_not_sign d) as [Hplus Hminus].
    rewrite !bool_decide_eq_false_2 by done. simpl orb. cbv iota.
    rewrite Hparse. simpl.
    by rewrite Z.geb_leb, (proj2 (Z.leb_gt _ _)) by lia.
  - destruct (ParseUint_pretty_positive p) as (d & rest & Hhead & Hparse).
    { unfold strconv.maxUint64. lia. }
    unfold pretty, pretty_Z, pretty, pretty_positive.
    rewrite string_app_cons, string_app_nil.
    unfold strconv.ParseInt.
    rewrite (bool_decide_eq_true_2 ("-"%char = "-"%char)) by done.
    rewrite orb_true_r. cbv iota. rewrite Hparse. simpl.
    by rewrite Z.gtb_ltb, (proj2 (Z.ltb_ge _ _)) by lia.
Qed.

(** X22: the decimal text of an identifier goes through the route
    GET /items/{id} unchanged.  For every [int64] identifier, its
    decimal text as the path parameter is parsed back to that
    identifier; a positive one reaches the store as the one call
    GetByID with that identifier, and when the store reports
    ErrNotFound the 404 message quotes the path parameter; one that is
    not positive is rejected with 422 before the store is called. *)
Theorem GetItemByID_handler_decimal_id repo ctx body id :
  - 2 ^ 63 ≤ id < 2 ^ 63 →
  let r := handlers.mkRequest ctx (pretty id) body in
  let out := handlers.GetItemByID (handlers.NewItemService repo) r in
  strconv.ParseInt (handlers.req_id r) = inr id ∧
  (id ≤ 0 →
   calls out = [] ∧ handlers.StatusCode (result out) = 422) ∧
  (0 < id →
   calls out = [CallGetByID ctx id] ∧
   ∀ err, GetByID repo ctx id = inl err → Is err ErrNotFound = true →
     result out =
       handlers.writeJSON 404
         (handlers.PayloadError
            (mkErrorResponse true
               ("Item with id " +:+ handlers.req_id r +:+ " not found")
               ErrorCodeNotFound))).
Proof.
  intros Hid. simpl. split; [by apply ParseInt_pretty|].
  unfold handlers.GetItemByID. simpl. rewrite ParseInt_pretty by done.
  unfold handlers.as_interface. split.
  - intros Hle. by rewrite GetItemByID_invalid.
  - intros Hpos. rewrite GetItemByID_valid by done. simpl. split.
    + destruct (GetByID repo ctx id) as [err|item]; [|done].
      by destruct (Is err ErrNotFound).
    + by intros err -> ->.
Qed.

Lemma GetItemByID_handler_decimal_id_witness :
  result (handlers.GetItemByID (handlers.NewItemService descendingRepo)
            (handlers.mkRequest Background "7" (inl (ErrorString "EOF")))) =
    handlers.writeJSON 404
      (handlers.PayloadError
         (mkErrorResponse true "Item with id 7 not found" ErrorCodeNotFound)).
Proof.
  assert (- 2 ^ 63 ≤ 7 < 2 ^ 63) as Hid by lia.
  pose proof (GetItemByID_handler_decimal_id descendingRepo Background
                (inl (ErrorString "EOF")) 7 Hid) as (_ & _ & H).
  assert (0 < 7) as Hpos by lia.
  destruct (H Hpos) as [_ Hnf]. by apply (Hnf ErrNotFound).
Defined.

End decimal_identifiers.
